(** * PathMatcher: the path-targeting engine of sfdx-scanner

    A shallow embedding of [src/lib/util/PathMatcher.ts] and the properties
    of its decision function.  Promises are values that are resolved,
    rejected or never settled; asynchronous functions are state-passing
    computations over the world the caller's predicates act on. *)

From Equations Require Import Equations.
From Stdlib Require Import List String Ascii Bool Arith Lia.
From Stdlib Require Import Permutation ZArith.
Import ListNotations.

Local Open Scope string_scope.
Local Open Scope list_scope.

(** ** Strings, as the JavaScript methods the matcher calls *)

(** [s.startsWith(p)] *)
Definition startsWith (s p : string) : bool := String.prefix p s.

(** [s.slice(n)]: the characters from index [n] to the end. *)
Definition slice (s : string) (n : nat) : string :=
  String.substring n (String.length s - n) s.

(** [s.includes(sub)] on strings *)
Fixpoint str_includes (s sub : string) : bool :=
  String.prefix sub s ||
  match s with
  | EmptyString => false
  | String _ r => str_includes r sub
  end.

(** [arr.includes(x)] on an array of booleans *)
Definition includes (rs : list bool) (x : bool) : bool :=
  existsb (Bool.eqb x) rs.

(** [arr.push(x)] *)
Definition push {A : Type} (arr : list A) (x : A) : list A := arr ++ [x].

(** [map_In l f] is [map], with the membership proof handed to [f]: the
    shape a recursive call on the elements of a computed list needs. *)
Fixpoint map_In {A B : Type} (l : list A) : (forall a, In a l -> B) -> list B :=
  match l with
  | [] => fun _ => []
  | a :: r => fun f =>
      f a (or_introl eq_refl) :: map_In r (fun b H => f b (or_intror H))
  end.

(** ** A reference instance of the capabilities the matcher is given

    Enough of [normalize-path] and of glob matching to run the matcher on
    concrete paths: backslashes become slashes; in a glob, [*] stands for
    characters of one segment, a leading [**/] for any number of whole
    segments, a final [**] for anything. *)

Definition is_char (c d : ascii) : bool := Ascii.eqb c d.

Fixpoint slashes (s : string) : string :=
  match s with
  | EmptyString => EmptyString
  | String c r => String (if is_char c (ascii_of_nat 92) then "/"%char else c) (slashes r)
  end.

(** [k] holds of what follows some slash of [s]. *)
Fixpoint after_slash (k : string -> bool) (s : string) : bool :=
  match s with
  | EmptyString => false
  | String c r => (is_char c "/" && k r) || after_slash k r
  end.

(** [k] holds of [s] after some characters of its first segment. *)
Fixpoint within_segment (k : string -> bool) (s : string) : bool :=
  k s ||
  match s with
  | EmptyString => false
  | String c r => negb (is_char c "/") && within_segment k r
  end.

Fixpoint wildcard (g : string) : string -> bool :=
  match g with
  | EmptyString => fun s => match s with EmptyString => true | _ => false end
  | String c g1 =>
      if is_char c "*" then
        match g1 with
        | String c1 EmptyString =>
            if is_char c1 "*" then fun _ => true
            else within_segment (wildcard g1)
        | String c1 (String c2 g2) =>
            if is_char c1 "*" && is_char c2 "/"
            then fun s => wildcard g2 s || after_slash (wildcard g2) s
            else within_segment (wildcard g1)
        | EmptyString => within_segment (wildcard g1)
        end
      else fun s =>
        match s with
        | EmptyString => false
        | String d r => is_char c d && wildcard g1 r
        end
  end.

Definition anyOf (globs : list string) (t : string) : bool :=
  existsb (fun g => wildcard g t) globs.

Definition firstOf {R : Type} (e : R) (es : list R) : R := e.

Section PathMatcher.

(** What the caller's predicates read and write (files, caches, ...). *)
Variable World : Type.
(** The values a promise is rejected with. *)
Variable Reason : Type.

(** [normalize-path]: canonical separators. *)
Variable normalize : string -> string.
(** [picomatch(patterns)]: the compiled test of an array of globs. *)
Variable picomatch : list string -> string -> bool.
(** Which of several rejections of one [Promise.all] settled first; the
    runtime decides, by time. *)
Variable race : Reason -> list Reason -> Reason.

(** ** Promises *)

Inductive Promise (A : Type) : Type :=
| Resolved (a : A)
| Rejected (e : Reason)
| Pending.
Arguments Resolved {A} a.
Arguments Rejected {A} e.
Arguments Pending {A}.

(** The state a query runs in: the caller's world and, as a ghost field,
    the calls made to caller-supplied predicates with their outcomes. *)
Record State : Type := mkState {
  world : World;
  calls : list (string * Promise bool)
}.

(** An [async] computation: run from a state, it leaves a promise. *)
Definition Async (A : Type) : Type := State -> Promise A * State.

Definition ret {A : Type} (a : A) : Async A := fun s => (Resolved a, s).

(** [await m] followed by [k]: the continuation runs only when [m] is
    resolved; a rejection is rethrown, a pending promise never resumes. *)
Definition await {A B : Type} (m : Async A) (k : A -> Async B) : Async B :=
  fun s =>
    match m s with
    | (Resolved a, s') => k a s'
    | (Rejected e, s') => (Rejected e, s')
    | (Pending, s') => (Pending, s')
    end.

(** [ms.map(m => m())]: every computation is started, in array order.  Here
    each runs to its end before the next starts; the runtime interleaves
    them at their [await]s.  Which calls are made, and how a promise settles
    when the predicates do not depend on the world, is the same either
    way. *)
Fixpoint issue {A : Type} (ms : list (Async A)) : State -> list (Promise A) * State :=
  match ms with
  | [] => fun s => ([], s)
  | m :: r => fun s =>
      let (p, s1) := m s in
      let (ps, s2) := issue r s1 in
      (p :: ps, s2)
  end.

Fixpoint rejections {A : Type} (ps : list (Promise A)) : list Reason :=
  match ps with
  | [] => []
  | Rejected e :: r => e :: rejections r
  | _ :: r => rejections r
  end.

Fixpoint values {A : Type} (ps : list (Promise A)) : list A :=
  match ps with
  | [] => []
  | Resolved a :: r => a :: values r
  | _ :: r => values r
  end.

Definition is_pending {A : Type} (p : Promise A) : bool :=
  match p with Pending => true | _ => false end.

(** The promise [Promise.all(ps)] settles to: rejected as soon as one of
    [ps] is, resolved to all the values once all are resolved. *)
Definition gather {A : Type} (ps : list (Promise A)) : Promise (list A) :=
  match rejections ps with
  | e :: es => Rejected (race e es)
  | [] => if existsb is_pending ps then Pending else Resolved (values ps)
  end.

Definition Promise_all {A : Type} (ms : list (Async A)) : Async (list A) :=
  fun s => let (ps, s') := issue ms s in (gather ps, s').

(** ** The types of [types.d.ts] *)

Definition BasicTargetPattern : Type := string.

(** [(t: string) => Promise<boolean>] *)
Definition TargetMatchingFunction : Type := string -> Async bool.

(** A caller-supplied [advancedMatcher]: it acts on the caller's world and
    cannot touch the ghost field. *)
Definition Predicate : Type := string -> World -> Promise bool * World.

(** Modelled from the spec: the declarations of [TargetPattern] and
    [AdvancedTargetPattern] are not in the [types.d.ts] at hand.  A pattern
    is a string or a record [{basePatterns, advancedMatcher}] whose
    [basePatterns] is again a full pattern list. *)
Inductive TargetPattern : Type :=
| Basic (p : BasicTargetPattern)
| Advanced (p : AdvancedTargetPattern)
with AdvancedTargetPattern : Type :=
| mkAdvanced (basePatterns : list TargetPattern) (advancedMatcher : Predicate).

Definition basePatterns (p : AdvancedTargetPattern) : list TargetPattern :=
  match p with mkAdvanced bs _ => bs end.

Definition advancedMatcher (p : AdvancedTargetPattern) : Predicate :=
  match p with mkAdvanced _ f => f end.

(** Calling the caller's predicate: its effect on the world, and one more
    entry in the ghost record of calls. *)
Definition invoke (f : Predicate) : TargetMatchingFunction :=
  fun t s =>
    let (r, w) := f t (world s) in
    (r, mkState w (push (calls s) (t, r))).

Record SortedPatterns : Type := mkSorted {
  inclusionPatterns : list BasicTargetPattern;
  exclusionPatterns : list BasicTargetPattern;
  advancedPatterns : list AdvancedTargetPattern
}.

(** ** [sortPatterns] *)

(** The body of the [forEach] callback, on the three arrays built so far. *)
Definition sortPattern (acc : SortedPatterns) (p : TargetPattern) : SortedPatterns :=
  match p with
  | Basic p =>
      let np := normalize p in
      if negb (startsWith np "!") then
        mkSorted (push (inclusionPatterns acc) np)
                 (exclusionPatterns acc) (advancedPatterns acc)
      else
        mkSorted (inclusionPatterns acc)
                 (push (exclusionPatterns acc) (slice np 1)) (advancedPatterns acc)
  | Advanced p =>
      mkSorted (inclusionPatterns acc) (exclusionPatterns acc)
               (push (advancedPatterns acc) p)
  end.

Definition sortPatterns (patterns : list TargetPattern) : SortedPatterns :=
  fold_left sortPattern patterns (mkSorted [] [] []).

(** ** Termination measure of the recursive construction *)

Fixpoint pattern_size (p : TargetPattern) : nat :=
  match p with
  | Basic _ => 1
  | Advanced a => S (advanced_size a)
  end
with advanced_size (a : AdvancedTargetPattern) : nat :=
  match a with
  | mkAdvanced bs _ =>
      S ((fix sum (l : list TargetPattern) : nat :=
            match l with
            | [] => 0
            | p :: r => pattern_size p + sum r
            end) bs)
  end.

Fixpoint patterns_size (l : list TargetPattern) : nat :=
  match l with
  | [] => 0
  | p :: r => pattern_size p + patterns_size r
  end.

Lemma advanced_size_eq (a : AdvancedTargetPattern) :
  advanced_size a = S (patterns_size (basePatterns a)).
Proof.
  destruct a as [bs f]. reflexivity.
Qed.

Lemma patterns_size_In (a : AdvancedTargetPattern) (l : list TargetPattern) :
  In (Advanced a) l -> patterns_size (basePatterns a) < patterns_size l.
Proof.
  induction l as [|p r IH]; simpl; [tauto |].
  intros [-> | H].
  - simpl. rewrite advanced_size_eq. lia.
  - specialize (IH H). lia.
Qed.

Lemma sortPattern_advanced (acc : SortedPatterns) (p : TargetPattern) :
  advancedPatterns (sortPattern acc p) =
  advancedPatterns acc ++
  match p with Advanced a => [a] | Basic _ => [] end.
Proof.
  destruct p as [b | a]; simpl.
  - destruct (negb _); simpl; now rewrite app_nil_r.
  - reflexivity.
Qed.

Lemma fold_sortPattern_advanced (l : list TargetPattern) (acc : SortedPatterns) (a : AdvancedTargetPattern) :
  In a (advancedPatterns (fold_left sortPattern l acc)) ->
  In a (advancedPatterns acc) \/ In (Advanced a) l.
Proof.
  revert acc; induction l as [|p r IH]; simpl; intros acc H; [now left |].
  destruct (IH _ H) as [H1 | H1]; [| now right; right].
  rewrite sortPattern_advanced in H1. apply in_app_or in H1.
  destruct H1 as [H1 | H1]; [now left |].
  destruct p as [b | a']; simpl in H1; [tauto |].
  destruct H1 as [-> | []]. right; now left.
Qed.

Lemma sortPatterns_advanced_In (l : list TargetPattern) (a : AdvancedTargetPattern) :
  In a (advancedPatterns (sortPatterns l)) -> In (Advanced a) l.
Proof.
  intros H. destruct (fold_sortPattern_advanced _ _ _ H) as [[] | H1]. exact H1.
Qed.

(** ** [generateMatchingFunction] and [generateAdvancedMatcher] *)

(** The closure [generateAdvancedMatcher] returns, given the matcher it
    built from [pattern.basePatterns]. *)
Definition advancedClosure (baseMatcher : TargetMatchingFunction)
    (pattern : AdvancedTargetPattern) : TargetMatchingFunction :=
  fun t =>
    await (baseMatcher t) (fun b =>
    if b then invoke (advancedMatcher pattern) t else ret false).

(** [generateMatchingFunction] calls [generateAdvancedMatcher] on the advanced
    patterns it sorted out, which calls it back on their [basePatterns]:
    the recursion is on the size of the pattern list, and the closure of
    [generateAdvancedMatcher] is written out at its call.
    [generateMatchingFunction_source] below restates the equation with
    [map generateAdvancedMatcher]. *)
Equations? generateMatchingFunction (patterns : list TargetPattern) : TargetMatchingFunction
  by wf (patterns_size patterns) lt :=
generateMatchingFunction patterns :=
  let sorted := sortPatterns patterns in
  let inclusionPatterns := inclusionPatterns sorted in
  let exclusionPatterns := exclusionPatterns sorted in
  let advancedPatterns := advancedPatterns sorted in
  let inclusionMatcher := picomatch inclusionPatterns in
  let exclusionMatcher := picomatch exclusionPatterns in
  let advancedMatchers :=
    map_In advancedPatterns (fun ap H =>
      advancedClosure (generateMatchingFunction (basePatterns ap)) ap) in
  fun t =>
    if (List.length exclusionPatterns =? 0)%nat || negb (exclusionMatcher t) then
      if ((List.length inclusionPatterns =? 0)%nat && (List.length advancedPatterns =? 0)%nat)
         || inclusionMatcher t
      then ret true
      else await (Promise_all (map (fun am => am t) advancedMatchers))
                 (fun rs => ret (includes rs true))
    else ret false.
Proof.
  apply patterns_size_In, sortPatterns_advanced_In. exact H.
Qed.

Definition generateAdvancedMatcher (pattern : AdvancedTargetPattern) : TargetMatchingFunction :=
  let baseMatcher := generateMatchingFunction (basePatterns pattern) in
  advancedClosure baseMatcher pattern.

(** ** The class [PathMatcher] *)

(** Its one field, [private readonly matcher]. *)
Record PathMatcher : Type := mkPathMatcher {
  matcher : TargetMatchingFunction
}.

(** [constructor(patterns)] *)
Definition new_PathMatcher (patterns : list TargetPattern) : PathMatcher :=
  mkPathMatcher (generateMatchingFunction patterns).

(** [arr.forEach((x, idx) => ...)], the callback acting on an accumulator. *)
Fixpoint forEach_from {A S : Type} (idx : nat) (arr : list A)
    (f : S -> A -> nat -> S) (acc : S) : S :=
  match arr with
  | [] => acc
  | x :: r => forEach_from (Datatypes.S idx) r f (f acc x idx)
  end.

Definition forEach {A S : Type} (arr : list A) (f : S -> A -> nat -> S) (acc : S) : S :=
  forEach_from 0 arr f acc.

(** [filterPathsByPatterns(targets)].  [targets[idx]] is always in range:
    [Promise.all] resolves to as many results as there are targets. *)
Definition filterPathsByPatterns (this : PathMatcher) (targets : list string) : Async (list string) :=
  await (Promise_all (map (fun t => matcher this (normalize t)) targets))
    (fun matchResults =>
       let filteredTargets :=
         forEach matchResults (fun (filteredTargets : list string) (r : bool) idx =>
           if r then
             match nth_error targets idx with
             | Some target => push filteredTargets target
             | None => filteredTargets
             end
           else filteredTargets) [] in
       ret filteredTargets).

(** [pathMatchesPatterns(target)] *)
Definition pathMatchesPatterns (this : PathMatcher) (target : string) : Async bool :=
  matcher this (normalize target).

(** ** The classification, in the words of the specification *)

(** The bucket one pattern is placed in: a normalized string without the
    marker is an inclusion, the remainder of a string with the marker is an
    exclusion, an advanced pattern is kept as it is. *)
Definition classify (p : TargetPattern) : SortedPatterns :=
  match p with
  | Basic str =>
      if startsWith (normalize str) "!"
      then mkSorted [] [slice (normalize str) 1] []
      else mkSorted [normalize str] [] []
  | Advanced adv => mkSorted [] [] [adv]
  end.

(** The composed rule of the single-path query, on booleans. *)
Definition composedRule (exclusionBucket inclusionBucket : list BasicTargetPattern)
    (advancedBucket : list AdvancedTargetPattern)
    (exclusionPredicate inclusionPredicate : string -> bool)
    (anyAdvanced : bool) (path : string) : bool :=
  ((List.length exclusionBucket =? 0)%nat || negb (exclusionPredicate path))
  && (((List.length inclusionBucket =? 0)%nat && (List.length advancedBucket =? 0)%nat)
      || inclusionPredicate path
      || anyAdvanced).

(** The first conjunct of the expression the decision function returns. *)
Definition exclusionClause (patterns : list TargetPattern) (t : string) : bool :=
  let sorted := sortPatterns patterns in
  (List.length (exclusionPatterns sorted) =? 0)%nat
  || negb (picomatch (exclusionPatterns sorted) t).

(** The disjuncts of its second conjunct that need no promise. *)
Definition inclusionClause (patterns : list TargetPattern) (t : string) : bool :=
  let sorted := sortPatterns patterns in
  ((List.length (inclusionPatterns sorted) =? 0)%nat
   && (List.length (advancedPatterns sorted) =? 0)%nat)
  || picomatch (inclusionPatterns sorted) t.

Definition resolved_true (p : Promise bool) : bool :=
  match p with Resolved true => true | _ => false end.

Definition is_resolved {A : Type} (p : Promise A) : bool :=
  match p with Resolved _ => true | _ => false end.

(** The promises of the advanced matchers of [patterns], all issued on [t]
    from the state [s]. *)
Definition advancedDecisions (patterns : list TargetPattern) (t : string) (s : State) : list (Promise bool) :=
  fst (issue (map (fun am : TargetMatchingFunction => am t)
                  (map generateAdvancedMatcher (advancedPatterns (sortPatterns patterns)))) s).

(** The reasons of the rejected calls in a record of calls. *)
Fixpoint rejected_calls (l : list (string * Promise bool)) : list Reason :=
  match l with
  | [] => []
  | (_, Rejected e) :: r => e :: rejected_calls r
  | _ :: r => rejected_calls r
  end.

(** A predicate is deterministic when its outcome does not depend on the
    world it runs in; a pattern list is, when every predicate in it is. *)
Definition deterministic (f : Predicate) : Prop :=
  forall t w w', fst (f t w) = fst (f t w').

Fixpoint deterministic_pattern (p : TargetPattern) : Prop :=
  match p with
  | Basic _ => True
  | Advanced a => deterministic_advanced a
  end
with deterministic_advanced (a : AdvancedTargetPattern) : Prop :=
  match a with
  | mkAdvanced bs f =>
      deterministic f /\
      (fix all (l : list TargetPattern) : Prop :=
         match l with
         | [] => True
         | p :: r => deterministic_pattern p /\ all r
         end) bs
  end.

Fixpoint deterministic_patterns (l : list TargetPattern) : Prop :=
  match l with
  | [] => True
  | p :: r => deterministic_pattern p /\ deterministic_patterns r
  end.

(** What the [forEach] of [filterPathsByPatterns] leaves in
    [filteredTargets]. *)
Definition pushMatched (targets : list string) (filteredTargets : list string)
    (r : bool) (idx : nat) : list string :=
  if r then
    match nth_error targets idx with
    | Some target => push filteredTargets target
    | None => filteredTargets
    end
  else filteredTargets.

(** The targets whose result is [true], in input order. *)
Definition matched (targets : list string) (results : list bool) : list string :=
  map fst (filter snd (combine targets results)).

(** A promise surfaces the failures of a record of calls when it is rejected
    only with the reason of a rejected call, and is rejected as soon as a
    call was. *)
Definition surfaces {A : Type} (r : Promise A) (new : list (string * Promise bool)) : Prop :=
  (forall e, r = Rejected e -> In e (rejected_calls new))
  /\ (rejected_calls new <> [] -> exists e, r = Rejected e).

(** A computation accounts for its calls when, from every state, it only
    adds calls on paths satisfying [Q] to the record and its promise
    surfaces their failures. *)
Definition accounted {A : Type} (Q : string -> Prop) (m : Async A) : Prop :=
  forall s, exists new,
    calls (snd (m s)) = calls s ++ new
    /\ Forall (fun c => Q (fst c)) new
    /\ surfaces (fst (m s)) new.

(** Two promises settle alike: resolved to the same value, both rejected,
    or both pending. *)
Definition same_result {A : Type} (p q : Promise A) : Prop :=
  match p, q with
  | Resolved a, Resolved b => a = b
  | Rejected _, Rejected _ => True
  | Pending, Pending => True
  | _, _ => False
  end.

(** How a promise has settled, and how the worst of the calls of a record
    has: one rejected call makes it [Failed]; without one, a call that
    never settles makes it [Hanging]. *)
Inductive Settlement : Type := Fulfilled | Failed | Hanging.

Definition settlement {A : Type} (p : Promise A) : Settlement :=
  match p with
  | Resolved _ => Fulfilled
  | Rejected _ => Failed
  | Pending => Hanging
  end.

Definition worst (a b : Settlement) : Settlement :=
  match a, b with
  | Failed, _ | _, Failed => Failed
  | Hanging, _ | _, Hanging => Hanging
  | Fulfilled, Fulfilled => Fulfilled
  end.
Arguments worst : simpl nomatch.

Fixpoint calls_settlement (l : list (string * Promise bool)) : Settlement :=
  match l with
  | [] => Fulfilled
  | (_, r) :: rest => worst (settlement r) (calls_settlement rest)
  end.

(** A computation settles as its calls do when, from every state, it only
    adds calls to the record and its promise settles as the worst of them. *)
Definition settles_as_calls {A : Type} (m : Async A) : Prop :=
  forall s, exists new,
    calls (snd (m s)) = calls s ++ new
    /\ settlement (fst (m s)) = calls_settlement new.

(** The number of caller-supplied predicates in a pattern list, nested ones
    included. *)
Fixpoint pattern_predicates (p : TargetPattern) : nat :=
  match p with
  | Basic _ => 0
  | Advanced a => advanced_predicates a
  end
with advanced_predicates (a : AdvancedTargetPattern) : nat :=
  match a with
  | mkAdvanced bs _ =>
      S ((fix sum (l : list TargetPattern) : nat :=
            match l with
            | [] => 0
            | p :: r => pattern_predicates p + sum r
            end) bs)
  end.

Fixpoint patterns_predicates (l : list TargetPattern) : nat :=
  match l with
  | [] => 0
  | p :: r => pattern_predicates p + patterns_predicates r
  end.

(** A computation makes at most [n] calls. *)
Definition calls_at_most {A : Type} (n : nat) (m : Async A) : Prop :=
  forall s, exists new,
    calls (snd (m s)) = calls s ++ new /\ List.length new <= n.

(** The decision of a matcher built from strings only. *)
Definition stringsDecision (patterns : list TargetPattern) (t : string) : bool :=
  let sorted := sortPatterns patterns in
  ((List.length (exclusionPatterns sorted) =? 0)%nat
   || negb (picomatch (exclusionPatterns sorted) t))
  && ((List.length (inclusionPatterns sorted) =? 0)%nat
      || picomatch (inclusionPatterns sorted) t).

(** ** Facts on the helpers *)

Lemma substring_whole (s : string) : String.substring 0 (String.length s) s = s.
Proof. induction s as [|c r IH]; simpl; [reflexivity | now rewrite IH]. Qed.

Lemma slice_cons (c : ascii) (rest : string) : slice (String c rest) 1 = rest.
Proof. unfold slice; simpl. rewrite Nat.sub_0_r. apply substring_whole. Qed.

Lemma startsWith_marker (np : string) :
  startsWith np "!" = true -> np = String "!" (slice np 1).
Proof.
  unfold startsWith. destruct np as [|c r]; [discriminate |].
  cbn [String.prefix].
  destruct (ascii_dec "!" c) as [<- | _]; [| discriminate].
  intros _. now rewrite slice_cons.
Qed.

Lemma startsWith_cons_marker (rest : string) : startsWith (String "!" rest) "!" = true.
Proof.
  unfold startsWith. cbn [String.prefix].
  destruct (ascii_dec "!" "!") as [_ | N]; [now destruct rest | now elim N].
Qed.

Lemma map_In_map {A B : Type} (f : A -> B) (l : list A) :
  map_In l (fun a _ => f a) = map f l.
Proof. induction l as [|a r IH]; simpl; [reflexivity | now rewrite IH]. Qed.

Lemma includes_true (rs : list bool) : includes rs true = existsb (fun b => b) rs.
Proof.
  unfold includes. induction rs as [|b r IH]; simpl; [reflexivity |].
  rewrite IH. now destruct b.
Qed.

Lemma length_zero_nil {A : Type} (l : list A) : (List.length l =? 0)%nat = true <-> l = [].
Proof. destruct l; simpl; split; intros H; try reflexivity; discriminate. Qed.

(** ** [sortPatterns] is the bucket-wise concatenation of [classify] *)

Lemma sortPattern_classify (acc : SortedPatterns) (p : TargetPattern) :
  sortPattern acc p =
  mkSorted (inclusionPatterns acc ++ inclusionPatterns (classify p))
           (exclusionPatterns acc ++ exclusionPatterns (classify p))
           (advancedPatterns acc ++ advancedPatterns (classify p)).
Proof.
  destruct acc as [i e a]; destruct p as [str | adv]; simpl; unfold push.
  - destruct (startsWith (normalize str) "!"); simpl; now rewrite !app_nil_r.
  - now rewrite !app_nil_r.
Qed.

Lemma fold_sortPattern_classify (l : list TargetPattern) (acc : SortedPatterns) :
  fold_left sortPattern l acc =
  mkSorted (inclusionPatterns acc ++ flat_map (fun p => inclusionPatterns (classify p)) l)
           (exclusionPatterns acc ++ flat_map (fun p => exclusionPatterns (classify p)) l)
           (advancedPatterns acc ++ flat_map (fun p => advancedPatterns (classify p)) l).
Proof.
  revert acc; induction l as [|p r IH]; intros acc; simpl.
  - destruct acc; simpl; now rewrite !app_nil_r.
  - rewrite IH, sortPattern_classify; simpl. now rewrite <- !app_assoc.
Qed.

Lemma sortPatterns_classify (l : list TargetPattern) :
  sortPatterns l =
  mkSorted (flat_map (fun p => inclusionPatterns (classify p)) l)
           (flat_map (fun p => exclusionPatterns (classify p)) l)
           (flat_map (fun p => advancedPatterns (classify p)) l).
Proof. unfold sortPatterns. now rewrite fold_sortPattern_classify. Qed.

(** ** The defining equation of [generateMatchingFunction], as the source
    has it: the advanced matchers are [advancedPatterns.map(ap =>
    this.generateAdvancedMatcher(ap))]. *)

Lemma generateMatchingFunction_source (patterns : list TargetPattern) (t : string) :
  generateMatchingFunction patterns t =
  let sorted := sortPatterns patterns in
  let inclusionMatcher := picomatch (inclusionPatterns sorted) in
  let exclusionMatcher := picomatch (exclusionPatterns sorted) in
  let advancedMatchers := map generateAdvancedMatcher (advancedPatterns sorted) in
  if (List.length (exclusionPatterns sorted) =? 0)%nat || negb (exclusionMatcher t) then
    if ((List.length (inclusionPatterns sorted) =? 0)%nat
        && (List.length (advancedPatterns sorted) =? 0)%nat)
       || inclusionMatcher t
    then ret true
    else await (Promise_all (map (fun am : TargetMatchingFunction => am t) advancedMatchers))
               (fun rs => ret (includes rs true))
  else ret false.
Proof.
  rewrite generateMatchingFunction_equation_1. cbv zeta.
  rewrite <- (map_In_map generateAdvancedMatcher). reflexivity.
Qed.

(** ** [Promise.all] *)

Lemma gather_resolved {A : Type} (ps : list (Promise A)) :
  forallb is_resolved ps = true -> gather ps = Resolved (values ps).
Proof.
  intros H. unfold gather.
  assert (R : rejections ps = [] /\ existsb is_pending ps = false).
  { induction ps as [|p r IH]; simpl in *; [now split |].
    destruct p; simpl in *; try discriminate. now apply IH. }
  destruct R as [-> ->]. reflexivity.
Qed.

Lemma gather_Resolved_inv {A : Type} (ps : list (Promise A)) (vs : list A) :
  gather ps = Resolved vs -> forallb is_resolved ps = true /\ vs = values ps.
Proof.
  unfold gather. destruct (rejections ps) as [|e es] eqn:R; [| discriminate].
  destruct (existsb is_pending ps) eqn:P; [discriminate |].
  intros [= <-]. split; [| reflexivity].
  induction ps as [|p r IH]; simpl in *; [reflexivity |].
  destruct p; simpl in *; try discriminate. now apply IH.
Qed.

Lemma values_resolved_true (ps : list (Promise bool)) :
  forallb is_resolved ps = true ->
  existsb (fun b => b) (values ps) = existsb resolved_true ps.
Proof.
  induction ps as [|p r IH]; simpl; [reflexivity |].
  destruct p as [[] | e |]; simpl; try discriminate; auto.
Qed.

Lemma Promise_all_issue {A : Type} (ms : list (Async A)) (s : State) :
  Promise_all ms s = (gather (fst (issue ms s)), snd (issue ms s)).
Proof. unfold Promise_all. now destruct (issue ms s). Qed.

(** ** The three ways a decision is reached *)

Ltac decision_cases patterns t Ex Inc :=
  destruct (exclusionClause patterns t) eqn:Ex;
  [destruct (inclusionClause patterns t) eqn:Inc |].

Lemma decision_excluded (patterns : list TargetPattern) (t : string) (s : State) :
  exclusionClause patterns t = false ->
  generateMatchingFunction patterns t s = (Resolved false, s).
Proof.
  intros H. rewrite generateMatchingFunction_source. cbv zeta.
  unfold exclusionClause in H. now rewrite H.
Qed.

Lemma decision_included (patterns : list TargetPattern) (t : string) (s : State) :
  exclusionClause patterns t = true -> inclusionClause patterns t = true ->
  generateMatchingFunction patterns t s = (Resolved true, s).
Proof.
  intros H1 H2. rewrite generateMatchingFunction_source. cbv zeta.
  unfold exclusionClause in H1. unfold inclusionClause in H2.
  now rewrite H1, H2.
Qed.

Lemma decision_gathered (patterns : list TargetPattern) (t : string) (s : State) :
  exclusionClause patterns t = true -> inclusionClause patterns t = false ->
  generateMatchingFunction patterns t s =
  await (Promise_all (map (fun am : TargetMatchingFunction => am t)
                          (map generateAdvancedMatcher
                               (advancedPatterns (sortPatterns patterns)))))
        (fun rs => ret (includes rs true)) s.
Proof.
  intros H1 H2. rewrite generateMatchingFunction_source. cbv zeta.
  unfold exclusionClause in H1. unfold inclusionClause in H2.
  now rewrite H1, H2.
Qed.

(** ** The single-path query *)

(** C1.  [pathMatchesPatterns] evaluates, on the normalized path, the rule
    (exclusion bucket empty or exclusion predicate false) and ((inclusion
    and advanced buckets empty) or inclusion predicate true or some
    advanced decision true): whenever it resolves, it resolves to the value
    of the rule, and it does resolve when every advanced decision does. *)
Theorem pathMatchesPatterns_composed_rule
    (patterns : list TargetPattern) (target : string) (s : State) :
  let sorted := sortPatterns patterns in
  let path := normalize target in
  let rule :=
    composedRule (exclusionPatterns sorted) (inclusionPatterns sorted)
      (advancedPatterns sorted)
      (picomatch (exclusionPatterns sorted)) (picomatch (inclusionPatterns sorted))
      (existsb resolved_true (advancedDecisions patterns path s)) path in
  (forall b s',
      pathMatchesPatterns (new_PathMatcher patterns) target s = (Resolved b, s') ->
      b = rule) /\
  (forallb is_resolved (advancedDecisions patterns path s) = true ->
   fst (pathMatchesPatterns (new_PathMatcher patterns) target s) = Resolved rule).
Proof.
  intros sorted path rule.
  unfold pathMatchesPatterns, new_PathMatcher; simpl matcher. fold path.
  assert (R : rule = exclusionClause patterns path
                     && (inclusionClause patterns path
                         || existsb resolved_true (advancedDecisions patterns path s)))
    by reflexivity.
  destruct (exclusionClause patterns path) eqn:Ex.
  - destruct (inclusionClause patterns path) eqn:Inc.
    + rewrite (decision_included _ _ _ Ex Inc). simpl in R.
      split; [intros b s' [= <- _] | intros _]; now rewrite R.
    + rewrite (decision_gathered _ _ _ Ex Inc). simpl in R.
      unfold await. rewrite Promise_all_issue.
      fold (advancedDecisions patterns path s).
      split.
      * intros b s'.
        destruct (gather (advancedDecisions patterns path s)) as [vs | e |] eqn:G;
          try discriminate.
        unfold ret. intros [= <- _].
        apply gather_Resolved_inv in G. destruct G as [All ->].
        now rewrite R, includes_true, values_resolved_true.
      * intros All. rewrite (gather_resolved _ All). unfold ret; simpl.
        now rewrite R, includes_true, values_resolved_true.
  - rewrite (decision_excluded _ _ _ Ex). simpl in R.
    split; [intros b s' [= <- _] | intros _]; now rewrite R.
Qed.

(** ** Classification *)

Lemma classify_one_bucket (p : TargetPattern) :
  List.length (inclusionPatterns (classify p))
  + List.length (exclusionPatterns (classify p))
  + List.length (advancedPatterns (classify p)) = 1.
Proof.
  destruct p as [str | adv]; simpl; [| reflexivity].
  now destruct (startsWith (normalize str) "!").
Qed.

(** C3.  [sortPatterns] places every pattern in exactly one bucket, in input
    order: a string is normalized and, when it starts with the marker, its
    remainder goes to the exclusions, otherwise the normalized string goes
    to the inclusions; an advanced pattern goes to the advanced bucket as
    it is, its [basePatterns] untouched.  The empty list yields three empty
    buckets.  [sortPatterns] is a function of the pattern list alone: it is
    no [Async] computation and touches no state. *)
Theorem sortPatterns_one_bucket_each (patterns : list TargetPattern) :
  sortPatterns patterns =
    mkSorted (flat_map (fun p => inclusionPatterns (classify p)) patterns)
             (flat_map (fun p => exclusionPatterns (classify p)) patterns)
             (flat_map (fun p => advancedPatterns (classify p)) patterns)
  /\ (forall p,
        List.length (inclusionPatterns (classify p))
        + List.length (exclusionPatterns (classify p))
        + List.length (advancedPatterns (classify p)) = 1)
  /\ List.length (inclusionPatterns (sortPatterns patterns))
     + List.length (exclusionPatterns (sortPatterns patterns))
     + List.length (advancedPatterns (sortPatterns patterns))
     = List.length patterns
  /\ (forall str,
        classify (Basic str) = mkSorted [normalize str] [] []
        /\ startsWith (normalize str) "!" = false
        \/ exists rest,
             classify (Basic str) = mkSorted [] [rest] []
             /\ normalize str = String "!" rest)
  /\ (forall adv, classify (Advanced adv) = mkSorted [] [] [adv])
  /\ sortPatterns [] = mkSorted [] [] [].
Proof.
  split; [apply sortPatterns_classify |].
  split; [apply classify_one_bucket |].
  split.
  { rewrite sortPatterns_classify; simpl.
    induction patterns as [|p r IH]; simpl; [reflexivity |].
    rewrite !length_app. pose proof (classify_one_bucket p). lia. }
  split.
  { intros str; simpl. destruct (startsWith (normalize str) "!") eqn:M.
    - right. exists (slice (normalize str) 1). split; [reflexivity |].
      now apply startsWith_marker.
    - now left. }
  split; reflexivity.
Qed.

(** ** Advanced patterns without base patterns *)

(** C10.  With an empty [basePatterns] the nested buckets are all empty, the
    base decision accepts every path, and the advanced decision is the
    caller's [advancedMatcher] alone. *)
Theorem empty_basePatterns_predicate_alone
    (pattern : AdvancedTargetPattern) (t : string) (s : State) :
  basePatterns pattern = [] ->
  sortPatterns (basePatterns pattern) = mkSorted [] [] []
  /\ generateMatchingFunction (basePatterns pattern) t s = (Resolved true, s)
  /\ generateAdvancedMatcher pattern t s = invoke (advancedMatcher pattern) t s.
Proof.
  intros E.
  assert (B : generateMatchingFunction (basePatterns pattern) t s = (Resolved true, s)).
  { apply decision_included; rewrite E; reflexivity. }
  split; [now rewrite E |]. split; [exact B |].
  unfold generateAdvancedMatcher, advancedClosure, await. cbv zeta.
  now rewrite B.
Qed.

(** ** Globs: the array form of [picomatch] is the disjunction of its
    patterns, and so false on the empty array. *)

Variable glob : string -> string -> bool.
Hypothesis picomatch_any :
  forall globs t, picomatch globs t = existsb (fun g => glob g t) globs.

Lemma picomatch_matches (globs : list string) (t : string) :
  picomatch globs t = true <-> exists g, In g globs /\ glob g t = true.
Proof. rewrite picomatch_any. apply existsb_exists. Qed.

Lemma picomatch_matches_none (globs : list string) (t : string) :
  picomatch globs t = false <-> forall g, In g globs -> glob g t = false.
Proof.
  rewrite picomatch_any. split.
  - intros H g Hg. destruct (glob g t) eqn:G; [| reflexivity].
    assert (X : existsb (fun g => glob g t) globs = true)
      by (apply existsb_exists; eauto).
    congruence.
  - intros H. destruct (existsb _ globs) eqn:X; [| reflexivity].
    apply existsb_exists in X. destruct X as [g [Hg G]].
    rewrite (H g Hg) in G. discriminate.
Qed.

Lemma exclusionClause_false (patterns : list TargetPattern) (t : string) :
  exclusionClause patterns t = false <->
  exists g, In g (exclusionPatterns (sortPatterns patterns)) /\ glob g t = true.
Proof.
  unfold exclusionClause. cbv zeta. rewrite <- picomatch_matches.
  destruct (exclusionPatterns (sortPatterns patterns)) as [|g r] eqn:X; simpl.
  - rewrite picomatch_any; simpl. split; discriminate.
  - destruct (picomatch (g :: r) t); simpl; split; congruence.
Qed.

Lemma exclusionClause_true (patterns : list TargetPattern) (t : string) :
  exclusionClause patterns t = true <->
  forall g, In g (exclusionPatterns (sortPatterns patterns)) -> glob g t = false.
Proof.
  rewrite <- picomatch_matches_none. unfold exclusionClause. cbv zeta.
  destruct (exclusionPatterns (sortPatterns patterns)) as [|g r] eqn:X; simpl.
  - rewrite picomatch_any; simpl. split; reflexivity.
  - destruct (picomatch (g :: r) t); simpl; split; congruence.
Qed.

Lemma exclusion_marker_stripped (patterns : list TargetPattern) (g : string) :
  In g (exclusionPatterns (sortPatterns patterns)) <->
  exists str, In (Basic str) patterns /\ normalize str = String "!" g.
Proof.
  rewrite sortPatterns_classify; simpl. rewrite in_flat_map. split.
  - intros [p [Hp Hg]]. destruct p as [str | adv]; simpl in Hg; [| tauto].
    destruct (startsWith (normalize str) "!") eqn:M; simpl in Hg; [| tauto].
    destruct Hg as [<- | []]. exists str. split; [exact Hp |].
    now apply startsWith_marker.
  - intros [str [Hp Hn]]. exists (Basic str). split; [exact Hp |].
    cbn [classify]. rewrite Hn, startsWith_cons_marker. cbn [exclusionPatterns].
    left. apply slice_cons.
Qed.

Lemma resolved_true_survives (patterns : list TargetPattern) (t : string) (s s' : State) :
  generateMatchingFunction patterns t s = (Resolved true, s') ->
  exclusionClause patterns t = true.
Proof.
  intros H. destruct (exclusionClause patterns t) eqn:Ex; [reflexivity |].
  rewrite (decision_excluded _ _ _ Ex) in H. discriminate.
Qed.

Lemma exclusion_only_buckets (patterns : list TargetPattern) :
  (forall p, In p patterns ->
     exists str, p = Basic str /\ startsWith (normalize str) "!" = true) ->
  inclusionPatterns (sortPatterns patterns) = []
  /\ advancedPatterns (sortPatterns patterns) = [].
Proof.
  intros H. rewrite sortPatterns_classify; simpl.
  induction patterns as [|p r IH]; simpl; [now split |].
  destruct (H p (or_introl eq_refl)) as [str [-> M]]. simpl. rewrite M. simpl.
  apply IH. intros q Hq. apply H. now right.
Qed.

(** ** Exclusion *)

(** C2.  The exclusion bucket holds the normalized strings that start with
    the marker, without it; the exclusion clause is the negation of their
    disjunction, that is, the conjunction of their negations.  A path that
    matches one exclusion glob is rejected whatever the inclusions and the
    advanced patterns are, and a path that is accepted matches none. *)
Theorem exclusion_dominates
    (patterns : list TargetPattern) (target : string) (s : State) :
  let exclusions := exclusionPatterns (sortPatterns patterns) in
  let path := normalize target in
  (forall g, In g exclusions <->
             exists str, In (Basic str) patterns /\ normalize str = String "!" g)
  /\ exclusionClause patterns path = forallb (fun g => negb (glob g path)) exclusions
  /\ ((exists g, In g exclusions /\ glob g path = true) ->
      pathMatchesPatterns (new_PathMatcher patterns) target s = (Resolved false, s))
  /\ (exclusionClause patterns path = true <->
      forall g, In g exclusions -> glob g path = false)
  /\ (forall s',
        pathMatchesPatterns (new_PathMatcher patterns) target s = (Resolved true, s') ->
        forall g, In g exclusions -> glob g path = false).
Proof.
  intros exclusions path. subst exclusions path.
  split; [intros g; apply exclusion_marker_stripped |].
  split.
  { unfold exclusionClause. cbv zeta. rewrite picomatch_any.
    destruct (exclusionPatterns (sortPatterns patterns)) as [|g r]; [reflexivity |].
    change ((List.length (g :: r) =? 0)%nat) with false. rewrite orb_false_l.
    generalize (g :: r). intros l.
    induction l as [|h l IH]; simpl; [reflexivity |].
    rewrite negb_orb. now rewrite IH. }
  split.
  { intros M. apply decision_excluded. now apply exclusionClause_false. }
  split; [apply exclusionClause_true |].
  intros s' H. apply exclusionClause_true.
  exact (resolved_true_survives _ _ _ _ H).
Qed.

(** C9.  A path that matches an exclusion glob resolves to false, and a path
    that survives the exclusions and matches an inclusion glob resolves to
    true; in both cases the state is the one the query started in: no
    predicate was called, so none could fail the query. *)
Theorem globs_settle_without_predicates
    (patterns : list TargetPattern) (target : string) (s : State) :
  let sorted := sortPatterns patterns in
  let path := normalize target in
  ((exists g, In g (exclusionPatterns sorted) /\ glob g path = true) ->
   pathMatchesPatterns (new_PathMatcher patterns) target s = (Resolved false, s))
  /\ ((forall g, In g (exclusionPatterns sorted) -> glob g path = false) ->
      (exists g, In g (inclusionPatterns sorted) /\ glob g path = true) ->
      pathMatchesPatterns (new_PathMatcher patterns) target s = (Resolved true, s)).
Proof.
  intros sorted path. subst sorted path. split.
  - intros M. apply decision_excluded. now apply exclusionClause_false.
  - intros N M. apply decision_included.
    + now apply exclusionClause_true.
    + unfold inclusionClause. cbv zeta.
      apply picomatch_matches in M. rewrite M. apply orb_true_r.
Qed.

(** ** Default accept *)

(** C5.  When the inclusion and the advanced buckets are empty, every path
    the exclusion clause lets through is accepted; so is, for a matcher
    built from exclusion strings only, every path that matches none of the
    exclusion globs. *)
Theorem default_accept
    (patterns : list TargetPattern) (target : string) (s : State) :
  let sorted := sortPatterns patterns in
  let path := normalize target in
  (inclusionPatterns sorted = [] -> advancedPatterns sorted = [] ->
   exclusionClause patterns path = true ->
   pathMatchesPatterns (new_PathMatcher patterns) target s = (Resolved true, s))
  /\ ((forall p, In p patterns ->
         exists str, p = Basic str /\ startsWith (normalize str) "!" = true) ->
      (forall g, In g (exclusionPatterns sorted) -> glob g path = false) ->
      pathMatchesPatterns (new_PathMatcher patterns) target s = (Resolved true, s)).
Proof.
  intros sorted path. subst sorted path.
  assert (D : inclusionPatterns (sortPatterns patterns) = [] ->
              advancedPatterns (sortPatterns patterns) = [] ->
              exclusionClause patterns (normalize target) = true ->
              pathMatchesPatterns (new_PathMatcher patterns) target s = (Resolved true, s)).
  { intros I A Ex. apply decision_included; [exact Ex |].
    unfold inclusionClause. cbv zeta. now rewrite I, A. }
  split; [exact D |].
  intros Only N. destruct (exclusion_only_buckets _ Only) as [I A].
  apply D; [exact I | exact A |]. now apply exclusionClause_true.
Qed.

(** ** Advanced patterns *)

Lemma generateAdvancedMatcher_source (pattern : AdvancedTargetPattern) (t : string) (s : State) :
  generateAdvancedMatcher pattern t s =
  match generateMatchingFunction (basePatterns pattern) t s with
  | (Resolved true, s1) => invoke (advancedMatcher pattern) t s1
  | (Resolved false, s1) => (Resolved false, s1)
  | (Rejected e, s1) => (Rejected e, s1)
  | (Pending, s1) => (Pending, s1)
  end.
Proof.
  unfold generateAdvancedMatcher, advancedClosure, await. cbv zeta.
  destruct (generateMatchingFunction (basePatterns pattern) t s) as [[[] | e |] s1];
    reflexivity.
Qed.

Lemma single_advanced (pattern : AdvancedTargetPattern) (t : string) (s : State) (b : bool) (s' : State) :
  generateAdvancedMatcher pattern t s = (Resolved b, s') ->
  generateMatchingFunction [Advanced pattern] t s = (Resolved b, s').
Proof.
  intros H. rewrite decision_gathered;
    [| reflexivity | unfold inclusionClause; simpl; now rewrite picomatch_any].
  unfold await, Promise_all. simpl. rewrite H. unfold gather; simpl.
  unfold ret, includes; simpl. now destruct b.
Qed.

(** C4.  The advanced decision is the conjunction of the decision of the
    matcher built from [basePatterns], by the very function that builds the
    top-level matcher, and of the caller's predicate.  With the base pattern
    [**/*.cls] and a predicate that holds of the paths containing [Test],
    [FooTest.cls] matches and [Foo.cls] does not; [Foo.txt] does not match
    whatever the predicate is. *)
Theorem advanced_decision_is_conjunction
    (pattern : AdvancedTargetPattern) (t : string) (s : State) :
  let base := matcher (new_PathMatcher (basePatterns pattern)) in
  (forall b1 s1 b2 w2,
      base t s = (Resolved b1, s1) ->
      advancedMatcher pattern t (world s1) = (Resolved b2, w2) ->
      fst (generateAdvancedMatcher pattern t s) = Resolved (b1 && b2))
  /\ (forall b s',
        generateAdvancedMatcher pattern t s = (Resolved b, s') ->
        exists b1 s1,
          base t s = (Resolved b1, s1)
          /\ b = b1 && resolved_true (fst (advancedMatcher pattern t (world s1))))
  /\ (forall s1,
        base t s = (Resolved false, s1) ->
        generateAdvancedMatcher pattern t s = (Resolved false, s1))
  /\ (forall (f : Predicate) (s0 : State),
        normalize "**/*.cls" = "**/*.cls" ->
        normalize "Foo.cls" = "Foo.cls" ->
        normalize "FooTest.cls" = "FooTest.cls" ->
        normalize "Foo.txt" = "Foo.txt" ->
        glob "**/*.cls" "Foo.cls" = true ->
        glob "**/*.cls" "FooTest.cls" = true ->
        glob "**/*.cls" "Foo.txt" = false ->
        let this := new_PathMatcher [Advanced (mkAdvanced [Basic "**/*.cls"] f)] in
        fst (pathMatchesPatterns this "Foo.txt" s0) = Resolved false
        /\ ((forall p w, fst (f p w) = Resolved (str_includes p "Test")) ->
            fst (pathMatchesPatterns this "Foo.cls" s0) = Resolved false
            /\ fst (pathMatchesPatterns this "FooTest.cls" s0) = Resolved true)).
Proof.
  intros base. subst base. unfold new_PathMatcher; simpl matcher.
  split; [| split; [| split]].
  - intros b1 s1 b2 w2 B P. rewrite generateAdvancedMatcher_source, B.
    destruct b1; [| reflexivity]. unfold invoke. now rewrite P.
  - intros b s' H. rewrite generateAdvancedMatcher_source in H.
    destruct (generateMatchingFunction (basePatterns pattern) t s)
      as [[[] | e |] s1] eqn:B; try discriminate.
    + exists true, s1. split; [reflexivity |]. unfold invoke in H.
      destruct (advancedMatcher pattern t (world s1)) as [r w].
      injection H as -> _. now destruct b.
    + exists false, s1. split; [reflexivity |]. now injection H as <- _.
  - intros s1 B. now rewrite generateAdvancedMatcher_source, B.
  - intros f s0 Np Na Nb Nc Ga Gb Gc.
    unfold pathMatchesPatterns; simpl matcher. rewrite Na, Nb, Nc.
    set (adv := mkAdvanced [Basic "**/*.cls"] f).
    assert (S : sortPatterns (basePatterns adv) = mkSorted ["**/*.cls"] [] []).
    { unfold sortPatterns; simpl. rewrite Np. reflexivity. }
    assert (Ex : forall p, exclusionClause (basePatterns adv) p = true).
    { intros p. unfold exclusionClause. now rewrite S. }
    assert (In : forall p, inclusionClause (basePatterns adv) p = glob "**/*.cls" p).
    { intros p. unfold inclusionClause. rewrite S. cbv zeta. simpl.
      rewrite picomatch_any. simpl. apply orb_false_r. }
    assert (Yes : forall p s1, glob "**/*.cls" p = true ->
                generateMatchingFunction (basePatterns adv) p s1 = (Resolved true, s1)).
    { intros p s1 G. apply decision_included; [apply Ex | now rewrite In]. }
    assert (No : forall p s1, glob "**/*.cls" p = false ->
               generateMatchingFunction (basePatterns adv) p s1 = (Resolved false, s1)).
    { intros p s1 G. rewrite decision_gathered; [| apply Ex | now rewrite In].
      rewrite S. reflexivity. }
    split.
    + erewrite single_advanced; [reflexivity |].
      rewrite generateAdvancedMatcher_source, (No _ _ Gc). reflexivity.
    + intros F. split.
      * pose proof (F "Foo.cls" (world s0)) as Fa.
        destruct (f "Foo.cls" (world s0)) as [r w] eqn:Ea. simpl in Fa. subst r.
        erewrite single_advanced; [reflexivity |].
        rewrite generateAdvancedMatcher_source, (Yes _ _ Ga).
        unfold invoke. fold adv. simpl advancedMatcher. rewrite Ea. reflexivity.
      * pose proof (F "FooTest.cls" (world s0)) as Fb.
        destruct (f "FooTest.cls" (world s0)) as [r w] eqn:Eb. simpl in Fb. subst r.
        erewrite single_advanced; [reflexivity |].
        rewrite generateAdvancedMatcher_source, (Yes _ _ Gb).
        unfold invoke. simpl advancedMatcher. rewrite Eb. reflexivity.
Qed.

(** ** The batch query *)

Lemma forEach_from_matched (targets : list string) (results : list bool) :
  forall idx acc,
    List.length results + idx <= List.length targets ->
    forEach_from idx results (pushMatched targets) acc =
    acc ++ matched (skipn idx targets) results.
Proof.
  induction results as [|r rs IH]; intros idx acc L; simpl in *.
  - unfold matched. rewrite combine_nil. simpl. now rewrite app_nil_r.
  - destruct (nth_error targets idx) as [x |] eqn:N.
    2:{ apply nth_error_None in N. lia. }
    assert (K : skipn idx targets = x :: skipn (S idx) targets).
    { clear -N. revert idx N. induction targets as [|y l IHl]; intros [|i] N;
        simpl in *; try discriminate.
      - now injection N as ->.
      - now apply IHl. }
    rewrite IH by lia. rewrite K. unfold pushMatched, matched. rewrite N.
    destruct r; simpl; [| reflexivity]. unfold push. now rewrite <- app_assoc.
Qed.

Lemma issue_length {A : Type} (ms : list (Async A)) (s : State) :
  List.length (fst (issue ms s)) = List.length ms.
Proof.
  revert s; induction ms as [|m r IH]; intros s; simpl; [reflexivity |].
  destruct (m s) as [p s1]. specialize (IH s1).
  destruct (issue r s1) as [ps s2]. simpl in *. now rewrite IH.
Qed.

Lemma values_length {A : Type} (ps : list (Promise A)) :
  forallb is_resolved ps = true -> List.length (values ps) = List.length ps.
Proof.
  induction ps as [|p r IH]; simpl; [reflexivity |].
  destruct p; simpl; try discriminate. intros H. now rewrite IH.
Qed.

Lemma matched_values (targets : list string) (ps : list (Promise bool)) :
  forallb is_resolved ps = true ->
  matched targets (values ps) =
  map fst (filter (fun td => resolved_true (snd td)) (combine targets ps)).
Proof.
  unfold matched. revert targets.
  induction ps as [|p r IH]; intros targets R.
  - now rewrite !combine_nil.
  - destruct targets as [|x l]; [reflexivity |].
    destruct p as [[] | e |]; simpl in *; try discriminate; now rewrite IH.
Qed.

Lemma issue_pointwise (f : string -> Async bool) (targets : list string) (s : State) :
  Forall2 (fun t d => exists s0, d = fst (f t s0)) targets (fst (issue (map f targets) s)).
Proof.
  revert s; induction targets as [|x l IH]; intros s; simpl; [constructor |].
  destruct (f x s) as [p s1] eqn:E. specialize (IH s1).
  destruct (issue (map f l) s1) as [ps s2]. simpl in *.
  constructor; [| exact IH]. exists s. now rewrite E.
Qed.

Lemma issue_pure (f : string -> Async bool) (decide : string -> bool)
    (targets : list string) (s : State) :
  (forall t s0, fst (f t s0) = Resolved (decide t)) ->
  fst (issue (map f targets) s) = map (fun t => Resolved (decide t)) targets.
Proof.
  intros D. revert s; induction targets as [|x l IH]; intros s; simpl; [reflexivity |].
  pose proof (D x s) as Dx. destruct (f x s) as [p s1]. specialize (IH s1).
  destruct (issue (map f l) s1) as [ps s2]. simpl in *. now rewrite Dx, IH.
Qed.

Lemma filterPathsByPatterns_source (this : PathMatcher) (targets : list string) (s : State) :
  let issued := issue (map (fun t => matcher this (normalize t)) targets) s in
  filterPathsByPatterns this targets s =
  match gather (fst issued) with
  | Resolved matchResults => (Resolved (matched targets matchResults), snd issued)
  | Rejected e => (Rejected e, snd issued)
  | Pending => (Pending, snd issued)
  end.
Proof.
  intros issued. unfold filterPathsByPatterns, await. rewrite Promise_all_issue.
  fold issued. destruct (gather (fst issued)) as [rs | e |] eqn:G; try reflexivity.
  unfold ret. f_equal. f_equal.
  apply gather_Resolved_inv in G. destruct G as [R ->].
  unfold forEach. fold (pushMatched targets).
  rewrite forEach_from_matched; [reflexivity |].
  rewrite values_length by exact R. unfold issued.
  rewrite issue_length, length_map. lia.
Qed.

(** C6.  [filterPathsByPatterns] resolves to the original strings, in input
    order, whose decision, taken on the normalized string, is true: the
    decisions are issued target by target, the result is the targets at the
    positions of the true ones, and for a matcher that decides by a function
    the result is the input filtered by it.  With the inclusion [**/*.js],
    [b.js; a.js] gives [b.js; a.js]. *)
Theorem filterPathsByPatterns_subsequence
    (this : PathMatcher) (targets : list string) (s : State) :
  let decisions := fst (issue (map (fun t => matcher this (normalize t)) targets) s) in
  let kept :=
    map fst (filter (fun td => resolved_true (snd td)) (combine targets decisions)) in
  Forall2 (fun t d => exists s0, d = fst (matcher this (normalize t) s0)) targets decisions
  /\ (forall out s',
        filterPathsByPatterns this targets s = (Resolved out, s') -> out = kept)
  /\ (forallb is_resolved decisions = true ->
      fst (filterPathsByPatterns this targets s) = Resolved kept)
  /\ (forall decide : string -> bool,
        (forall t s0, fst (matcher this t s0) = Resolved (decide t)) ->
        fst (filterPathsByPatterns this targets s)
        = Resolved (filter (fun t => decide (normalize t)) targets))
  /\ (normalize "**/*.js" = "**/*.js" ->
      normalize "a.js" = "a.js" -> normalize "b.js" = "b.js" ->
      glob "**/*.js" "a.js" = true -> glob "**/*.js" "b.js" = true ->
      filterPathsByPatterns (new_PathMatcher [Basic "**/*.js"]) ["b.js"; "a.js"] s
      = (Resolved ["b.js"; "a.js"], s)).
Proof.
  intros decisions kept.
  pose proof (filterPathsByPatterns_source this targets s) as F. cbv zeta in F.
  fold decisions in F.
  split; [apply (issue_pointwise (fun t => matcher this (normalize t))) |].
  split; [| split; [| split]].
  - intros out s' H. rewrite F in H.
    destruct (gather decisions) as [rs | e |] eqn:G; try discriminate.
    injection H as <- _. apply gather_Resolved_inv in G. destruct G as [R ->].
    now apply matched_values.
  - intros R. rewrite F, (gather_resolved _ R). simpl. f_equal.
    now apply matched_values.
  - intros decide D. rewrite F.
    assert (E : decisions = map (fun t => Resolved (decide (normalize t))) targets).
    { unfold decisions.
      apply (issue_pure (fun t => matcher this (normalize t))
                        (fun t => decide (normalize t))).
      intros t s0. apply D. }
    assert (R : forallb is_resolved decisions = true).
    { rewrite E. clear. induction targets; simpl; auto. }
    rewrite (gather_resolved _ R). simpl. f_equal.
    rewrite (matched_values _ _ R), E. clear.
    induction targets as [|x l IH]; simpl; [reflexivity |].
    destruct (decide (normalize x)); simpl; now rewrite IH.
  - intros Np Na Nb Ga Gb.
    assert (D : forall p, glob "**/*.js" p = true -> forall s0,
                generateMatchingFunction [Basic "**/*.js"] p s0 = (Resolved true, s0)).
    { intros p G s0. apply decision_included.
      - unfold exclusionClause, sortPatterns; simpl. rewrite Np. reflexivity.
      - unfold inclusionClause, sortPatterns; simpl. rewrite Np. simpl.
        rewrite picomatch_any. simpl. now rewrite G. }
    rewrite filterPathsByPatterns_source. unfold new_PathMatcher; simpl.
    rewrite Na, Nb, (D _ Gb), (D _ Ga). reflexivity.
Qed.

(** ** Failures of the caller's predicates *)

(** Whichever rejection settles first, it is one of the rejections. *)
Hypothesis race_settles : forall e es, In (race e es) (e :: es).

Lemma rejected_calls_app (a b : list (string * Promise bool)) :
  rejected_calls (a ++ b) = rejected_calls a ++ rejected_calls b.
Proof.
  induction a as [|[t [v | e |]] r IH]; simpl; try rewrite IH; reflexivity.
Qed.

Lemma In_rejected_calls (new : list (string * Promise bool)) (e : Reason) :
  In e (rejected_calls new) <-> exists t, In (t, Rejected e) new.
Proof.
  induction new as [|[t [v | e0 |]] r IH]; simpl.
  - split; [tauto | intros [t []]].
  - rewrite IH. split; intros [p H]; exists p; [now right |].
    destruct H as [H | H]; [discriminate | exact H].
  - rewrite IH. split.
    + intros [<- | [p H]]; [exists t; now left | exists p; now right].
    + intros [p [H | H]]; [left; congruence | right; now exists p].
  - rewrite IH. split; intros [p H]; exists p; [now right |].
    destruct H as [H | H]; [discriminate | exact H].
Qed.

Lemma invoke_records (f : Predicate) (t : string) (s : State) :
  calls (snd (invoke f t s)) = calls s ++ [(t, fst (f t (world s)))]
  /\ fst (invoke f t s) = fst (f t (world s)).
Proof. unfold invoke. now destruct (f t (world s)). Qed.

Lemma accounted_weaken {A : Type} (Q Q' : string -> Prop) (m : Async A) :
  (forall p, Q p -> Q' p) -> accounted Q m -> accounted Q' m.
Proof.
  intros W M s. destruct (M s) as [new [C [F S]]]. exists new.
  split; [exact C |]. split; [| exact S].
  eapply Forall_impl; [| exact F]. intros c. apply W.
Qed.

Lemma accounted_ret {A : Type} (Q : string -> Prop) (a : A) : accounted Q (ret a).
Proof.
  intros s. exists []. simpl. rewrite app_nil_r.
  split; [reflexivity |]. split; [constructor |].
  split; [discriminate | intros H; now elim H].
Qed.

Lemma accounted_invoke (Q : string -> Prop) (f : Predicate) (t : string) :
  Q t -> accounted Q (invoke f t).
Proof.
  intros q s. unfold invoke. destruct (f t (world s)) as [r w].
  exists [(t, r)]. simpl. split; [reflexivity |].
  split; [repeat constructor; exact q |]. split.
  - intros e ->. simpl. now left.
  - destruct r as [v | e |]; simpl; intros H; try now elim H. eauto.
Qed.

Lemma accounted_await {A B : Type} (Q : string -> Prop) (m : Async A) (k : A -> Async B) :
  accounted Q m -> (forall a, accounted Q (k a)) -> accounted Q (await m k).
Proof.
  intros M K s. unfold await. destruct (M s) as [new1 [C1 [F1 [S1a S1b]]]].
  destruct (m s) as [[a | e |] s1]; cbn [fst snd] in *.
  - destruct (K a s1) as [new2 [C2 [F2 [S2a S2b]]]].
    assert (R : rejected_calls new1 = []).
    { destruct (rejected_calls new1) as [|e0 l] eqn:R; [reflexivity |]. exfalso.
      destruct S1b as [e' He']; discriminate. }
    exists (new1 ++ new2). rewrite C2, C1, app_assoc. split; [reflexivity |].
    split; [apply Forall_app; now split |].
    unfold surfaces. rewrite rejected_calls_app, R. simpl. now split.
  - exists new1. split; [exact C1 |]. split; [exact F1 |]. split.
    + intros e0 [= <-]. now apply S1a.
    + intros _. eauto.
  - exists new1. split; [exact C1 |]. split; [exact F1 |]. split.
    + discriminate.
    + intros N. destruct (S1b N) as [e0 He0]. discriminate.
Qed.

Lemma issue_accounted {A : Type} (Q : string -> Prop) (ms : list (Async A)) :
  (forall m, In m ms -> accounted Q m) ->
  forall s, exists new,
    calls (snd (issue ms s)) = calls s ++ new
    /\ Forall (fun c => Q (fst c)) new
    /\ (forall e, In e (rejections (fst (issue ms s))) -> In e (rejected_calls new))
    /\ (rejected_calls new <> [] -> rejections (fst (issue ms s)) <> []).
Proof.
  induction ms as [|m r IH]; intros H s; simpl.
  - exists []. simpl. rewrite app_nil_r.
    split; [reflexivity |]. split; [constructor |]. split; [tauto |].
    intros N; now elim N.
  - destruct (H m (or_introl eq_refl) s) as [new1 [C1 [F1 [S1a S1b]]]].
    destruct (m s) as [p s1]. cbn [fst snd] in *.
    destruct (IH (fun m' Hm => H m' (or_intror Hm)) s1) as [new2 [C2 [F2 [S2a S2b]]]].
    destruct (issue r s1) as [ps s2]. cbn [fst snd] in *.
    exists (new1 ++ new2). rewrite C2, C1, app_assoc. split; [reflexivity |].
    split; [apply Forall_app; now split |].
    rewrite rejected_calls_app. split.
    + intros e He. apply in_or_app. destruct p as [v | e0 |]; simpl in He.
      * right; auto.
      * destruct He as [<- | He]; [left; now apply S1a | right; auto].
      * right; auto.
    + destruct (rejected_calls new1) as [|e0 l] eqn:R1.
      * simpl. intros N. specialize (S2b N). destruct p; simpl; auto; discriminate.
      * intros _. destruct S1b as [e' ->]; discriminate.
Qed.

Lemma Promise_all_accounted {A : Type} (Q : string -> Prop) (ms : list (Async A)) :
  (forall m, In m ms -> accounted Q m) -> accounted Q (Promise_all ms).
Proof.
  intros H s. rewrite Promise_all_issue.
  destruct (issue_accounted Q ms H s) as [new [C [F [Ra Rb]]]].
  exists new. simpl. split; [exact C |]. split; [exact F |].
  unfold surfaces, gather.
  destruct (rejections (fst (issue ms s))) as [|e es] eqn:R.
  - split.
    + intros e. destruct (existsb is_pending (fst (issue ms s))); discriminate.
    + intros N. now elim (Rb N).
  - split.
    + intros e' [= <-]. apply Ra. apply race_settles.
    + intros _. eauto.
Qed.

Lemma decision_accounted_below (n : nat) :
  forall patterns, patterns_size patterns < n ->
  forall t, accounted (fun p => p = t) (generateMatchingFunction patterns t).
Proof.
  induction n as [|n IH]; intros patterns L t; [lia |]. intros s.
  decision_cases patterns t Ex Inc.
  - rewrite (decision_included _ _ _ Ex Inc). exact (accounted_ret (fun p => p = t) true s).
  - rewrite (decision_gathered _ _ _ Ex Inc).
    refine (accounted_await (fun p => p = t) _ _ _ _ s);
      [| intros rs; apply accounted_ret].
    apply Promise_all_accounted. intros m Hm.
    apply in_map_iff in Hm. destruct Hm as [am [<- Ham]].
    apply in_map_iff in Ham. destruct Ham as [ap [<- Hap]].
    unfold generateAdvancedMatcher, advancedClosure. cbv zeta.
    apply accounted_await.
    + apply IH. apply sortPatterns_advanced_In, patterns_size_In in Hap. lia.
    + intros [|]; [now apply accounted_invoke | apply accounted_ret].
  - rewrite (decision_excluded _ _ _ Ex). exact (accounted_ret (fun p => p = t) false s).
Qed.

Lemma decision_accounted (patterns : list TargetPattern) (t : string) :
  accounted (fun p => p = t) (generateMatchingFunction patterns t).
Proof. apply (decision_accounted_below (S (patterns_size patterns))). lia. Qed.

Lemma batch_accounted (patterns : list TargetPattern) (targets : list string) :
  accounted (fun p => In p (map normalize targets))
            (filterPathsByPatterns (new_PathMatcher patterns) targets).
Proof.
  unfold filterPathsByPatterns.
  apply accounted_await; [| intros rs; apply accounted_ret].
  apply Promise_all_accounted. intros m Hm.
  apply in_map_iff in Hm. destruct Hm as [x [<- Hx]]. simpl matcher.
  eapply accounted_weaken; [| apply decision_accounted].
  intros p ->. now apply in_map.
Qed.

Lemma accounted_propagates {A : Type} (Q : string -> Prop) (m : Async A) (s : State) :
  accounted Q m ->
  exists new,
    calls (snd (m s)) = calls s ++ new
    /\ Forall (fun c => Q (fst c)) new
    /\ (forall p e, In (p, Rejected e) new ->
        exists p' e', In (p', Rejected e') new /\ fst (m s) = Rejected e').
Proof.
  intros M. destruct (M s) as [new [C [F [Sa Sb]]]]. exists new.
  split; [exact C |]. split; [exact F |]. intros p e H.
  destruct Sb as [e' E].
  { intros N. assert (X : In e (rejected_calls new))
      by (apply In_rejected_calls; eauto).
    rewrite N in X. exact X. }
  destruct (proj1 (In_rejected_calls new e') (Sa e' E)) as [p' H'].
  exists p', e'. now split.
Qed.

(** C7.  Every call of a query to a predicate is on the normalized path (in
    a batch, on one of the normalized paths) and is recorded; if one of
    them was rejected, the query is rejected, with the reason of a rejected
    call: the failure is neither caught nor turned into [false], and one
    failing call fails the whole batch. *)
Theorem predicate_failure_propagates (patterns : list TargetPattern) (s : State) :
  (forall target, exists new,
      let query := pathMatchesPatterns (new_PathMatcher patterns) target s in
      calls (snd query) = calls s ++ new
      /\ Forall (fun c => fst c = normalize target) new
      /\ (forall p e, In (p, Rejected e) new ->
          exists p' e', In (p', Rejected e') new /\ fst query = Rejected e'))
  /\ (forall targets, exists new,
        let batch := filterPathsByPatterns (new_PathMatcher patterns) targets s in
        calls (snd batch) = calls s ++ new
        /\ Forall (fun c => In (fst c) (map normalize targets)) new
        /\ (forall p e, In (p, Rejected e) new ->
            exists p' e', In (p', Rejected e') new /\ fst batch = Rejected e')).
Proof.
  split.
  - intros target. cbv zeta.
    apply (accounted_propagates (fun p => p = normalize target)
             (pathMatchesPatterns (new_PathMatcher patterns) target) s).
    apply decision_accounted.
  - intros targets. cbv zeta.
    apply (accounted_propagates (fun p => In p (map normalize targets))
             (filterPathsByPatterns (new_PathMatcher patterns) targets) s).
    apply batch_accounted.
Qed.

(** ** Determinism *)

Lemma deterministic_In (l : list TargetPattern) (a : AdvancedTargetPattern) :
  deterministic_patterns l -> In (Advanced a) l ->
  deterministic (advancedMatcher a) /\ deterministic_patterns (basePatterns a).
Proof.
  induction l as [|p r IH]; simpl; [tauto |].
  intros [Dp Dr] [-> | H]; [| now apply IH].
  destruct a as [bs f]. exact Dp.
Qed.

Lemma issue_deterministic {A : Type} (ms : list (Async A)) :
  (forall m, In m ms -> forall s s', fst (m s) = fst (m s')) ->
  forall s s', fst (issue ms s) = fst (issue ms s').
Proof.
  induction ms as [|m r IH]; intros H s s'; simpl; [reflexivity |].
  pose proof (H m (or_introl eq_refl) s s') as Hm.
  destruct (m s) as [p s1], (m s') as [p' s1']. simpl in Hm. subst p'.
  pose proof (IH (fun m' Hm' => H m' (or_intror Hm')) s1 s1') as Hr.
  destruct (issue r s1) as [ps s2], (issue r s1') as [ps' s2']. simpl in *.
  now subst ps'.
Qed.

Lemma decision_deterministic_below (n : nat) :
  forall patterns, patterns_size patterns < n -> deterministic_patterns patterns ->
  forall t s s',
    fst (generateMatchingFunction patterns t s) = fst (generateMatchingFunction patterns t s').
Proof.
  induction n as [|n IH]; intros patterns L D t s s'; [lia |].
  decision_cases patterns t Ex Inc.
  - now rewrite !(decision_included _ _ _ Ex Inc).
  - rewrite !(decision_gathered _ _ _ Ex Inc). unfold await.
    rewrite !Promise_all_issue.
    match goal with
    | |- context [issue ?ms s] =>
        assert (E : fst (issue ms s) = fst (issue ms s'))
    end.
    { apply issue_deterministic. intros m Hm s1 s1'.
      apply in_map_iff in Hm. destruct Hm as [am [<- Ham]].
      apply in_map_iff in Ham. destruct Ham as [ap [<- Hap]].
      apply sortPatterns_advanced_In in Hap.
      destruct (deterministic_In _ _ D Hap) as [Df Db].
      rewrite !generateAdvancedMatcher_source.
      assert (B : fst (generateMatchingFunction (basePatterns ap) t s1)
                  = fst (generateMatchingFunction (basePatterns ap) t s1')).
      { apply IH; [| exact Db]. apply patterns_size_In in Hap. lia. }
      destruct (generateMatchingFunction (basePatterns ap) t s1) as [r1 z1],
               (generateMatchingFunction (basePatterns ap) t s1') as [r1' z1'].
      simpl in B. subst r1'. destruct r1 as [[] | e |]; try reflexivity.
      unfold invoke. pose proof (Df t (world z1) (world z1')) as F.
      destruct (advancedMatcher ap t (world z1)), (advancedMatcher ap t (world z1')).
      exact F. }
    rewrite E. now destruct (gather _).
  - now rewrite !(decision_excluded _ _ _ Ex).
Qed.

Lemma decision_deterministic (patterns : list TargetPattern) :
  deterministic_patterns patterns ->
  forall t s s',
    fst (generateMatchingFunction patterns t s) = fst (generateMatchingFunction patterns t s').
Proof. apply (decision_deterministic_below (S (patterns_size patterns))). lia. Qed.

Lemma same_result_refl {A : Type} (p q : Promise A) : p = q -> same_result p q.
Proof. intros <-. now destruct p. Qed.

(** C8.  With deterministic predicates the decision of a matcher does not
    depend on the state a query starts in, and a second
    [filterPathsByPatterns] on the same input, run after the first, settles
    as the first did: what the first resolved to, the second resolves to. *)
Theorem filterPathsByPatterns_idempotent
    (patterns : list TargetPattern) (targets : list string) (s : State) :
  deterministic_patterns patterns ->
  let this := new_PathMatcher patterns in
  let first := filterPathsByPatterns this targets s in
  let second := filterPathsByPatterns this targets (snd first) in
  same_result (fst first) (fst second)
  /\ (forall out, fst first = Resolved out -> fst second = Resolved out)
  /\ (forall t s1 s2, same_result (fst (matcher this t s1)) (fst (matcher this t s2))).
Proof.
  intros D this first second.
  assert (E : fst first = fst second).
  { unfold first, second. rewrite !filterPathsByPatterns_source. cbv zeta.
    match goal with
    | |- context [issue ?ms s] =>
        assert (E : fst (issue ms s) = fst (issue ms (snd first)))
    end.
    { apply issue_deterministic. intros m Hm s1 s1'.
      apply in_map_iff in Hm. destruct Hm as [x [<- Hx]].
      apply (decision_deterministic patterns D). }
    rewrite <- E. now destruct (gather _). }
  split; [now apply same_result_refl |].
  split; [intros out H; now rewrite <- E |].
  intros t s1 s2. apply same_result_refl.
  apply (decision_deterministic patterns D).
Qed.

(** * Further properties of the matcher *)

(** ** How a query settles *)

Lemma worst_Fulfilled_l (a : Settlement) : worst Fulfilled a = a.
Proof. now destruct a. Qed.

Lemma worst_assoc (a b c : Settlement) : worst a (worst b c) = worst (worst a b) c.
Proof. now destruct a, b, c. Qed.

Lemma calls_settlement_app (a b : list (string * Promise bool)) :
  calls_settlement (a ++ b) = worst (calls_settlement a) (calls_settlement b).
Proof.
  induction a as [|[t r] rest IH]; simpl.
  - now rewrite worst_Fulfilled_l.
  - now rewrite IH, worst_assoc.
Qed.

Lemma calls_settlement_Failed (new : list (string * Promise bool)) :
  calls_settlement new = Failed <-> exists p e, In (p, Rejected e) new.
Proof.
  induction new as [|[t r] rest IH]; simpl.
  - split; [discriminate | intros [p [e []]]].
  - split.
    + intros H. destruct r as [v | e |].
      * rewrite worst_Fulfilled_l in H. apply IH in H.
        destruct H as [p [e H]]. exists p, e. now right.
      * exists t, e. now left.
      * destruct (calls_settlement rest) eqn:R; try discriminate.
        destruct (proj1 IH eq_refl) as [p [e H']]. exists p, e. now right.
    + intros [p [e [H | H]]].
      * injection H as -> ->. reflexivity.
      * assert (R : calls_settlement rest = Failed) by (apply IH; eauto).
        rewrite R. now destruct r.
Qed.

Lemma calls_settlement_Fulfilled (new : list (string * Promise bool)) :
  calls_settlement new = Fulfilled <->
  forall c, In c new -> is_resolved (snd c) = true.
Proof.
  induction new as [|[t r] rest IH]; simpl.
  - split; [intros _ c [] | reflexivity].
  - split.
    + intros H c [<- | Hc].
      * now destruct r, (calls_settlement rest).
      * apply IH; [| exact Hc]. now destruct r, (calls_settlement rest).
    + intros H. pose proof (H (t, r) (or_introl eq_refl)) as Hr. simpl in Hr.
      destruct r; try discriminate. rewrite worst_Fulfilled_l.
      apply IH. intros c Hc. apply H. now right.
Qed.

Lemma calls_settlement_Hanging (new : list (string * Promise bool)) :
  calls_settlement new = Hanging <->
  (forall p e, ~ In (p, Rejected e) new) /\ exists p, In (p, Pending) new.
Proof.
  split.
  - intros H. split.
    + intros p e Hin.
      assert (F : calls_settlement new = Failed)
        by (apply calls_settlement_Failed; eauto).
      congruence.
    + induction new as [|[t r] rest IH]; simpl in *; [discriminate |].
      destruct r as [v | e |].
      * rewrite worst_Fulfilled_l in H. destruct (IH H) as [p Hp].
        exists p. now right.
      * discriminate.
      * exists t. now left.
  - intros [N [p Hp]].
    destruct (calls_settlement new) eqn:S; [| | reflexivity].
    + pose proof (proj1 (calls_settlement_Fulfilled new) S _ Hp) as R.
      discriminate.
    + apply calls_settlement_Failed in S. destruct S as [q [e Hq]].
      now elim (N q e).
Qed.

Lemma settles_ret {A : Type} (a : A) : settles_as_calls (ret a).
Proof. intros s. exists []. simpl. now rewrite app_nil_r. Qed.

Lemma settles_invoke (f : Predicate) (t : string) : settles_as_calls (invoke f t).
Proof.
  intros s. unfold invoke. destruct (f t (world s)) as [r w].
  exists [(t, r)]. simpl. split; [reflexivity |]. now destruct r.
Qed.

Lemma settles_await {A B : Type} (m : Async A) (k : A -> Async B) :
  settles_as_calls m -> (forall a, settles_as_calls (k a)) ->
  settles_as_calls (await m k).
Proof.
  intros M K s. unfold await. destruct (M s) as [new1 [C1 S1]].
  destruct (m s) as [[a | e |] s1]; cbn [fst snd] in *.
  - destruct (K a s1) as [new2 [C2 S2]].
    exists (new1 ++ new2). rewrite C2, C1, app_assoc. split; [reflexivity |].
    rewrite calls_settlement_app, <- S1, S2. simpl. now rewrite worst_Fulfilled_l.
  - exists new1. now split.
  - exists new1. now split.
Qed.

Lemma gather_settlement {A : Type} (ps : list (Promise A)) :
  settlement (gather ps) = fold_right worst Fulfilled (map settlement ps).
Proof.
  unfold gather. induction ps as [|p r IH]; simpl; [reflexivity |].
  rewrite <- IH.
  destruct p as [a | e |]; simpl; try reflexivity;
    destruct (rejections r); try reflexivity;
    now destruct (existsb is_pending r).
Qed.

Lemma issue_settles {A : Type} (ms : list (Async A)) :
  (forall m, In m ms -> settles_as_calls m) ->
  forall s, exists new,
    calls (snd (issue ms s)) = calls s ++ new
    /\ fold_right worst Fulfilled (map settlement (fst (issue ms s)))
       = calls_settlement new.
Proof.
  induction ms as [|m r IH]; intros H s; simpl.
  - exists []. simpl. now rewrite app_nil_r.
  - destruct (H m (or_introl eq_refl) s) as [new1 [C1 S1]].
    destruct (m s) as [p s1]. cbn [fst snd] in *.
    destruct (IH (fun m' Hm => H m' (or_intror Hm)) s1) as [new2 [C2 S2]].
    destruct (issue r s1) as [ps s2]. cbn [fst snd] in *.
    exists (new1 ++ new2). rewrite C2, C1, app_assoc. split; [reflexivity |].
    simpl. now rewrite calls_settlement_app, S1, S2.
Qed.

Lemma Promise_all_settles {A : Type} (ms : list (Async A)) :
  (forall m, In m ms -> settles_as_calls m) -> settles_as_calls (Promise_all ms).
Proof.
  intros H s. rewrite Promise_all_issue. cbn [fst snd].
  destruct (issue_settles ms H s) as [new [C S]].
  exists new. split; [exact C |]. now rewrite gather_settlement.
Qed.

Lemma decision_settles_below (n : nat) :
  forall patterns, patterns_size patterns < n ->
  forall t, settles_as_calls (generateMatchingFunction patterns t).
Proof.
  induction n as [|n IH]; intros patterns L t; [lia |]. intros s.
  decision_cases patterns t Ex Inc.
  - rewrite (decision_included _ _ _ Ex Inc). exact (settles_ret true s).
  - rewrite (decision_gathered _ _ _ Ex Inc).
    refine (settles_await _ _ _ _ s); [| intros rs; apply settles_ret].
    apply Promise_all_settles. intros m Hm.
    apply in_map_iff in Hm. destruct Hm as [am [<- Ham]].
    apply in_map_iff in Ham. destruct Ham as [ap [<- Hap]].
    unfold generateAdvancedMatcher, advancedClosure. cbv zeta.
    apply settles_await.
    + apply IH. apply sortPatterns_advanced_In, patterns_size_In in Hap. lia.
    + intros [|]; [apply settles_invoke | apply settles_ret].
  - rewrite (decision_excluded _ _ _ Ex). exact (settles_ret false s).
Qed.

Lemma decision_settles (patterns : list TargetPattern) (t : string) :
  settles_as_calls (generateMatchingFunction patterns t).
Proof. apply (decision_settles_below (S (patterns_size patterns))). lia. Qed.

Lemma batch_settles (patterns : list TargetPattern) (targets : list string) :
  settles_as_calls (filterPathsByPatterns (new_PathMatcher patterns) targets).
Proof.
  unfold filterPathsByPatterns.
  apply settles_await; [| intros rs; apply settles_ret].
  apply Promise_all_settles. intros m Hm.
  apply in_map_iff in Hm. destruct Hm as [x [<- Hx]]. simpl matcher.
  apply decision_settles.
Qed.

Lemma settles_spelled_out {A : Type} (m : Async A) (s : State) :
  settles_as_calls m ->
  exists new,
    calls (snd (m s)) = calls s ++ new
    /\ ((exists e, fst (m s) = Rejected e) <-> exists p e, In (p, Rejected e) new)
    /\ (fst (m s) = Pending <->
        (forall p e, ~ In (p, Rejected e) new) /\ exists p, In (p, Pending) new)
    /\ ((exists a, fst (m s) = Resolved a) <->
        forall c, In c new -> is_resolved (snd c) = true).
Proof.
  intros M. destruct (M s) as [new [C S]]. exists new. split; [exact C |].
  rewrite <- calls_settlement_Failed, <- calls_settlement_Hanging,
          <- calls_settlement_Fulfilled, <- S.
  destruct (fst (m s)) as [a | e |]; simpl; repeat split;
    try discriminate; try reflexivity; eauto;
    try (intros [x Hx]; discriminate).
Qed.

(** X1.  A query settles as its calls to the predicates do: it is rejected
    exactly when one of the calls it made was, it never settles exactly when
    none was rejected and one never settled, and it resolves exactly when
    all of them resolved.  The matcher adds no failure of its own. *)
Theorem query_settles_as_its_calls (patterns : list TargetPattern) (s : State) :
  (forall target, exists new,
      let query := pathMatchesPatterns (new_PathMatcher patterns) target s in
      calls (snd query) = calls s ++ new
      /\ ((exists e, fst query = Rejected e) <-> exists p e, In (p, Rejected e) new)
      /\ (fst query = Pending <->
          (forall p e, ~ In (p, Rejected e) new) /\ exists p, In (p, Pending) new)
      /\ ((exists b, fst query = Resolved b) <->
          forall c, In c new -> is_resolved (snd c) = true))
  /\ (forall targets, exists new,
        let batch := filterPathsByPatterns (new_PathMatcher patterns) targets s in
        calls (snd batch) = calls s ++ new
        /\ ((exists e, fst batch = Rejected e) <-> exists p e, In (p, Rejected e) new)
        /\ (fst batch = Pending <->
            (forall p e, ~ In (p, Rejected e) new) /\ exists p, In (p, Pending) new)
        /\ ((exists out, fst batch = Resolved out) <->
            forall c, In c new -> is_resolved (snd c) = true)).
Proof.
  split.
  - intros target. cbv zeta.
    apply (settles_spelled_out
             (pathMatchesPatterns (new_PathMatcher patterns) target) s).
    apply decision_settles.
  - intros targets. cbv zeta.
    apply (settles_spelled_out
             (filterPathsByPatterns (new_PathMatcher patterns) targets) s).
    apply batch_settles.
Qed.

(** ** How many calls a query makes *)

Lemma advanced_predicates_eq (a : AdvancedTargetPattern) :
  advanced_predicates a = S (patterns_predicates (basePatterns a)).
Proof. destruct a as [bs f]. reflexivity. Qed.

Lemma sorted_predicates (patterns : list TargetPattern) :
  list_sum (map advanced_predicates (advancedPatterns (sortPatterns patterns)))
  = patterns_predicates patterns.
Proof.
  rewrite sortPatterns_classify; simpl.
  induction patterns as [|p r IH]; simpl; [reflexivity |].
  rewrite map_app, list_sum_app, IH.
  destruct p as [str | adv]; simpl; [| lia].
  now destruct (startsWith (normalize str) "!").
Qed.

Lemma at_most_ret {A : Type} (n : nat) (a : A) : calls_at_most n (ret a).
Proof. intros s. exists []. simpl. rewrite app_nil_r. split; [reflexivity | lia]. Qed.

Lemma at_most_invoke (f : Predicate) (t : string) : calls_at_most 1 (invoke f t).
Proof.
  intros s. unfold invoke. destruct (f t (world s)) as [r w].
  exists [(t, r)]. simpl. split; [reflexivity | lia].
Qed.

Lemma at_most_await {A B : Type} (n1 n2 : nat) (m : Async A) (k : A -> Async B) :
  calls_at_most n1 m -> (forall a, calls_at_most n2 (k a)) ->
  calls_at_most (n1 + n2) (await m k).
Proof.
  intros M K s. unfold await. destruct (M s) as [new1 [C1 L1]].
  destruct (m s) as [[a | e |] s1]; cbn [fst snd] in *.
  - destruct (K a s1) as [new2 [C2 L2]].
    exists (new1 ++ new2). rewrite C2, C1, app_assoc. split; [reflexivity |].
    rewrite length_app. lia.
  - exists new1. split; [exact C1 | lia].
  - exists new1. split; [exact C1 | lia].
Qed.

Lemma at_most_issue {X A : Type} (f : X -> Async A) (bound : X -> nat) (xs : list X) :
  (forall x, In x xs -> calls_at_most (bound x) (f x)) ->
  forall s, exists new,
    calls (snd (issue (map f xs) s)) = calls s ++ new
    /\ List.length new <= list_sum (map bound xs).
Proof.
  induction xs as [|x r IH]; intros H s; simpl.
  - exists []. simpl. rewrite app_nil_r. split; [reflexivity | lia].
  - destruct (H x (or_introl eq_refl) s) as [new1 [C1 L1]].
    destruct (f x s) as [p s1]. cbn [fst snd] in *.
    destruct (IH (fun x' Hx => H x' (or_intror Hx)) s1) as [new2 [C2 L2]].
    destruct (issue (map f r) s1) as [ps s2]. cbn [fst snd] in *.
    exists (new1 ++ new2). rewrite C2, C1, app_assoc. split; [reflexivity |].
    rewrite length_app. lia.
Qed.

Lemma at_most_Promise_all {X A : Type} (f : X -> Async A) (bound : X -> nat) (xs : list X) :
  (forall x, In x xs -> calls_at_most (bound x) (f x)) ->
  calls_at_most (list_sum (map bound xs)) (Promise_all (map f xs)).
Proof.
  intros H s. rewrite Promise_all_issue. cbn [fst snd].
  apply at_most_issue. exact H.
Qed.

Lemma decision_at_most_below (n : nat) :
  forall patterns, patterns_size patterns < n ->
  forall t, calls_at_most (patterns_predicates patterns)
                          (generateMatchingFunction patterns t).
Proof.
  induction n as [|n IH]; intros patterns L t; [lia |]. intros s.
  decision_cases patterns t Ex Inc.
  - rewrite (decision_included _ _ _ Ex Inc). exact (at_most_ret _ true s).
  - rewrite (decision_gathered _ _ _ Ex Inc), map_map.
    rewrite <- sorted_predicates, <- (Nat.add_0_r (list_sum _)).
    refine (at_most_await _ _ _ _ _ _ s); [| intros rs; apply at_most_ret].
    apply at_most_Promise_all. intros ap Hap.
    rewrite advanced_predicates_eq, <- Nat.add_1_r.
    unfold generateAdvancedMatcher, advancedClosure. cbv zeta.
    apply at_most_await.
    + apply IH. apply sortPatterns_advanced_In, patterns_size_In in Hap. lia.
    + intros [|]; [apply at_most_invoke | apply at_most_ret].
  - rewrite (decision_excluded _ _ _ Ex). exact (at_most_ret _ false s).
Qed.

Lemma decision_at_most (patterns : list TargetPattern) (t : string) :
  calls_at_most (patterns_predicates patterns) (generateMatchingFunction patterns t).
Proof. apply (decision_at_most_below (S (patterns_size patterns))). lia. Qed.

Lemma list_sum_const {X : Type} (n : nat) (xs : list X) :
  list_sum (map (fun _ => n) xs) = List.length xs * n.
Proof. induction xs as [|x r IH]; simpl; [reflexivity | now rewrite IH]. Qed.

(** X2.  The calls of a query are bounded by the predicates of the pattern
    list, nested ones included: a single query makes at most as many calls
    as there are predicates, a batch at most that many for each target. *)
Theorem calls_bounded_by_predicates (patterns : list TargetPattern) (s : State) :
  (forall target, exists new,
      calls (snd (pathMatchesPatterns (new_PathMatcher patterns) target s))
      = calls s ++ new
      /\ List.length new <= patterns_predicates patterns)
  /\ (forall targets, exists new,
        calls (snd (filterPathsByPatterns (new_PathMatcher patterns) targets s))
        = calls s ++ new
        /\ List.length new <= List.length targets * patterns_predicates patterns).
Proof.
  split.
  - intros target. apply decision_at_most.
  - intros targets. rewrite <- list_sum_const, <- (Nat.add_0_r (list_sum _)).
    unfold filterPathsByPatterns.
    refine (at_most_await _ _ _ _ _ _ s); [| intros rs; apply at_most_ret].
    apply (at_most_Promise_all
             (fun t => matcher (new_PathMatcher patterns) (normalize t))).
    intros t _. apply decision_at_most.
Qed.

(** ** Matchers built from strings only *)

Lemma strings_only_advanced (patterns : list TargetPattern) :
  (forall p, In p patterns -> exists str, p = Basic str) ->
  advancedPatterns (sortPatterns patterns) = [].
Proof.
  intros H. rewrite sortPatterns_classify; simpl.
  induction patterns as [|p r IH]; simpl; [reflexivity |].
  destruct (H p (or_introl eq_refl)) as [str ->]. simpl.
  rewrite IH by (intros q Hq; apply H; now right).
  now destruct (startsWith (normalize str) "!").
Qed.

Lemma strings_decision (patterns : list TargetPattern) (t : string) (s : State) :
  advancedPatterns (sortPatterns patterns) = [] ->
  generateMatchingFunction patterns t s = (Resolved (stringsDecision patterns t), s).
Proof.
  intros A.
  assert (I : inclusionClause patterns t =
              (List.length (inclusionPatterns (sortPatterns patterns)) =? 0)%nat
              || picomatch (inclusionPatterns (sortPatterns patterns)) t).
  { unfold inclusionClause. cbv zeta. rewrite A. simpl. now rewrite andb_true_r. }
  assert (D : stringsDecision patterns t
              = exclusionClause patterns t && inclusionClause patterns t).
  { now rewrite I. }
  rewrite D. decision_cases patterns t Ex Inc.
  - now rewrite (decision_included _ _ _ Ex Inc).
  - rewrite (decision_gathered _ _ _ Ex Inc), A. reflexivity.
  - now rewrite (decision_excluded _ _ _ Ex).
Qed.

Lemma issue_pure_state {A : Type} (f : string -> Async A) (decide : string -> A)
    (targets : list string) (s : State) :
  (forall t s0, f t s0 = (Resolved (decide t), s0)) ->
  issue (map f targets) s = (map (fun t => Resolved (decide t)) targets, s).
Proof.
  intros D. induction targets as [|x l IH]; simpl; [reflexivity |].
  now rewrite D, IH.
Qed.

Lemma gather_all_resolved {A : Type} (vs : list A) :
  gather (map (fun v => Resolved v) vs) = Resolved vs.
Proof.
  rewrite gather_resolved.
  - f_equal. induction vs as [|v r IH]; simpl; [reflexivity | now rewrite IH].
  - induction vs as [|v r IH]; simpl; auto.
Qed.

Lemma matched_filter (decide : string -> bool) (targets : list string) :
  matched targets (map decide targets) = filter decide targets.
Proof.
  unfold matched. induction targets as [|x l IH]; simpl; [reflexivity |].
  destruct (decide x); simpl; now rewrite IH.
Qed.

Lemma pure_batch (this : PathMatcher) (decide : string -> bool)
    (targets : list string) (s : State) :
  (forall t s0, matcher this t s0 = (Resolved (decide t), s0)) ->
  filterPathsByPatterns this targets s
  = (Resolved (filter (fun t => decide (normalize t)) targets), s).
Proof.
  intros D. rewrite filterPathsByPatterns_source. cbv zeta.
  rewrite (issue_pure_state (fun t => matcher this (normalize t))
                            (fun t => decide (normalize t))) by (intros; apply D).
  cbn [fst snd].
  rewrite <- (map_map (fun t => decide (normalize t)) (fun v => Resolved v)).
  rewrite gather_all_resolved. now rewrite matched_filter.
Qed.

(** X3.  A matcher built from strings only calls nothing and always
    resolves, in the state it started in: a path is accepted when it passes
    the exclusions and, if there are inclusions, matches them; the batch
    query is the filter of its input by that test. *)
Theorem strings_only_matcher_filters (patterns : list TargetPattern) :
  (forall p, In p patterns -> exists str, p = Basic str) ->
  (forall target s,
      pathMatchesPatterns (new_PathMatcher patterns) target s
      = (Resolved (stringsDecision patterns (normalize target)), s))
  /\ (forall targets s,
        filterPathsByPatterns (new_PathMatcher patterns) targets s
        = (Resolved (filter (fun t => stringsDecision patterns (normalize t)) targets), s)).
Proof.
  intros H. pose proof (strings_only_advanced _ H) as A. split.
  - intros target s. now apply strings_decision.
  - intros targets s. apply pure_batch. intros t s0. simpl matcher.
    now apply strings_decision.
Qed.

Lemma inclusion_only_buckets (patterns : list TargetPattern) :
  (forall p, In p patterns ->
     exists str, p = Basic str /\ startsWith (normalize str) "!" = false) ->
  sortPatterns patterns
  = mkSorted (flat_map (fun p => match p with Basic str => [normalize str] | _ => [] end)
                       patterns) [] [].
Proof.
  intros H. rewrite sortPatterns_classify.
  induction patterns as [|p r IH]; simpl; [reflexivity |].
  destruct (H p (or_introl eq_refl)) as [str [-> M]].
  injection (IH (fun q Hq => H q (or_intror Hq))) as I E A.
  simpl. rewrite M. simpl. now rewrite I, E, A.
Qed.

(** X4.  With no pattern at all every path is accepted and the batch query
    returns its input; with inclusion strings only, and at least one, a
    path is accepted exactly when it matches one of the normalized globs:
    the first inclusion pattern turns accept-all into accept-matching. *)
Theorem inclusions_only_accept_matching (patterns : list TargetPattern)
    (target : string) (s : State) :
  (forall p, In p patterns ->
     exists str, p = Basic str /\ startsWith (normalize str) "!" = false) ->
  (patterns = [] ->
   pathMatchesPatterns (new_PathMatcher patterns) target s = (Resolved true, s)
   /\ forall targets,
        filterPathsByPatterns (new_PathMatcher patterns) targets s
        = (Resolved targets, s))
  /\ (patterns <> [] ->
      exists b,
        pathMatchesPatterns (new_PathMatcher patterns) target s = (Resolved b, s)
        /\ (b = true <->
            exists str, In (Basic str) patterns
                        /\ glob (normalize str) (normalize target) = true)).
Proof.
  intros H. split.
  - intros ->. split; [reflexivity |]. intros targets.
    rewrite (pure_batch _ (fun _ => true)).
    + f_equal. f_equal. induction targets as [|x l IH]; simpl; [reflexivity |].
      now rewrite IH.
    + intros t s0. reflexivity.
  - intros N. exists (stringsDecision patterns (normalize target)). split.
    + apply strings_decision. now rewrite (inclusion_only_buckets _ H).
    + unfold stringsDecision. rewrite (inclusion_only_buckets _ H). cbv zeta.
      cbn [exclusionPatterns inclusionPatterns].
      change ((List.length (@nil BasicTargetPattern) =? 0)%nat) with true.
      rewrite orb_true_l, andb_true_l.
      match goal with
      | |- context [picomatch ?l _] => set (inclusions := l)
      end.
      assert (L : (@List.length BasicTargetPattern inclusions =? 0)%nat = false).
      { subst inclusions. destruct patterns as [|p r]; [now elim N |].
        destruct (H p (or_introl eq_refl)) as [str [-> _]]. reflexivity. }
      rewrite L, orb_false_l, picomatch_matches. split.
      * intros [g [Hg G]]. apply in_flat_map in Hg. destruct Hg as [p [Hp Hg]].
        destruct p as [str | adv]; simpl in Hg; [| tauto].
        destruct Hg as [<- | []]. now exists str.
      * intros [str [Hp G]]. exists (normalize str). split; [| exact G].
        apply in_flat_map. exists (Basic str). split; [exact Hp | now left].
Qed.

(** ** The batch query and the single query *)

Lemma race_alone (e : Reason) : race e [] = e.
Proof. destruct (race_settles e []) as [H | []]. now symmetry. Qed.

(** X5.  The batch query on one path is the single query on it: it resolves
    to the path or to nothing as the single query resolves to [true] or
    [false], is rejected with the same reason, or never settles, and leaves
    the same state. *)
Theorem singleton_batch_is_single_query (this : PathMatcher) (t : string) (s : State) :
  filterPathsByPatterns this [t] s =
  match pathMatchesPatterns this t s with
  | (Resolved true, s') => (Resolved [t], s')
  | (Resolved false, s') => (Resolved [], s')
  | (Rejected e, s') => (Rejected e, s')
  | (Pending, s') => (Pending, s')
  end.
Proof.
  rewrite filterPathsByPatterns_source. cbv zeta. unfold pathMatchesPatterns. simpl.
  destruct (matcher this (normalize t) s) as [[[] | e |] s']; simpl; try reflexivity.
  unfold gather; simpl. now rewrite race_alone.
Qed.

Lemma issue_fixed {A : Type} (ms : list (Async A)) (s0 : State) :
  (forall m, In m ms -> forall s s', fst (m s) = fst (m s')) ->
  forall s, fst (issue ms s) = map (fun m => fst (m s0)) ms.
Proof.
  induction ms as [|m r IH]; intros H s; simpl; [reflexivity |].
  pose proof (H m (or_introl eq_refl) s s0) as Hm.
  destruct (m s) as [p s1]. simpl in Hm.
  pose proof (IH (fun m' Hm' => H m' (or_intror Hm')) s1) as Hr.
  destruct (issue r s1) as [ps s2]. simpl in *. now rewrite Hm, Hr.
Qed.

(** The promise a batch settles to, for a matcher whose decisions do not
    depend on the state. *)
Lemma batch_fixed (patterns : list TargetPattern) (targets : list string) (s0 s : State) :
  deterministic_patterns patterns ->
  fst (filterPathsByPatterns (new_PathMatcher patterns) targets s) =
  match gather (map (fun t => fst (generateMatchingFunction patterns (normalize t) s0))
                    targets) with
  | Resolved matchResults => Resolved (matched targets matchResults)
  | Rejected e => Rejected e
  | Pending => Pending
  end.
Proof.
  intros D. rewrite filterPathsByPatterns_source. cbv zeta. simpl matcher.
  rewrite (issue_fixed _ s0).
  - rewrite map_map. now destruct (gather _).
  - intros m Hm s1 s2. apply in_map_iff in Hm. destruct Hm as [x [<- _]].
    now apply decision_deterministic.
Qed.

Lemma forallb_is_resolved_app {A : Type} (p1 p2 : list (Promise A)) :
  forallb is_resolved (p1 ++ p2) = forallb is_resolved p1 && forallb is_resolved p2.
Proof. apply forallb_app. Qed.

Lemma values_app {A : Type} (p1 p2 : list (Promise A)) :
  values (p1 ++ p2) = values p1 ++ values p2.
Proof.
  induction p1 as [|p r IH]; simpl; [reflexivity |].
  destruct p; simpl; now rewrite IH.
Qed.

Lemma gather_app_Resolved {A : Type} (p1 p2 : list (Promise A)) (vs : list A) :
  gather (p1 ++ p2) = Resolved vs <->
  exists v1 v2, gather p1 = Resolved v1 /\ gather p2 = Resolved v2 /\ vs = v1 ++ v2.
Proof.
  split.
  - intros G. apply gather_Resolved_inv in G. destruct G as [R ->].
    rewrite forallb_is_resolved_app in R. apply andb_true_iff in R.
    destruct R as [R1 R2]. exists (values p1), (values p2).
    rewrite !gather_resolved by assumption. now rewrite values_app.
  - intros [v1 [v2 [G1 [G2 ->]]]].
    apply gather_Resolved_inv in G1, G2. destruct G1 as [R1 ->], G2 as [R2 ->].
    rewrite gather_resolved, values_app; [reflexivity |].
    now rewrite forallb_is_resolved_app, R1, R2.
Qed.

Lemma combine_append {A B : Type} (a1 a2 : list A) (b1 b2 : list B) :
  List.length a1 = List.length b1 ->
  combine (a1 ++ a2) (b1 ++ b2) = combine a1 b1 ++ combine a2 b2.
Proof.
  revert b1; induction a1 as [|x r IH]; intros [|y b1] L; simpl in *;
    try discriminate; [reflexivity |].
  now rewrite IH by lia.
Qed.

Lemma matched_app (t1 t2 : list string) (r1 r2 : list bool) :
  List.length t1 = List.length r1 ->
  matched (t1 ++ t2) (r1 ++ r2) = matched t1 r1 ++ matched t2 r2.
Proof.
  intros L. unfold matched.
  rewrite combine_append by exact L. now rewrite filter_app, map_app.
Qed.

Lemma gather_Resolved_length {A B : Type} (f : B -> Promise A) (xs : list B) (vs : list A) :
  gather (map f xs) = Resolved vs -> List.length xs = List.length vs.
Proof.
  intros G. apply gather_Resolved_inv in G. destruct G as [R ->].
  now rewrite values_length, length_map.
Qed.

(** X6.  With deterministic predicates a batch can be split: the batch on a
    concatenation resolves exactly when the batches on the two parts do,
    and then to the concatenation of their results. *)
Theorem batch_of_concatenation
    (patterns : list TargetPattern) (targets1 targets2 : list string) (s : State) :
  deterministic_patterns patterns ->
  let this := new_PathMatcher patterns in
  forall out,
    fst (filterPathsByPatterns this (targets1 ++ targets2) s) = Resolved out <->
    exists out1 out2,
      (forall s1, fst (filterPathsByPatterns this targets1 s1) = Resolved out1)
      /\ (forall s2, fst (filterPathsByPatterns this targets2 s2) = Resolved out2)
      /\ out = out1 ++ out2.
Proof.
  intros D this out. subst this.
  rewrite (batch_fixed patterns (targets1 ++ targets2) s s D), map_app.
  set (d := fun t => fst (generateMatchingFunction patterns (normalize t) s)).
  split.
  - intros H.
    destruct (gather (map d targets1 ++ map d targets2)) as [vs | e |] eqn:G;
      try discriminate.
    injection H as <-. apply gather_app_Resolved in G.
    destruct G as [v1 [v2 [G1 [G2 ->]]]].
    exists (matched targets1 v1), (matched targets2 v2).
    split; [| split].
    + intros s1. rewrite (batch_fixed patterns targets1 s s1 D). fold d.
      now rewrite G1.
    + intros s2. rewrite (batch_fixed patterns targets2 s s2 D). fold d.
      now rewrite G2.
    + apply matched_app. exact (gather_Resolved_length _ _ _ G1).
  - intros [out1 [out2 [H1 [H2 ->]]]].
    specialize (H1 s). specialize (H2 s).
    rewrite (batch_fixed patterns targets1 s s D) in H1.
    rewrite (batch_fixed patterns targets2 s s D) in H2. fold d in H1, H2.
    destruct (gather (map d targets1)) as [v1 | |] eqn:G1; try discriminate.
    destruct (gather (map d targets2)) as [v2 | |] eqn:G2; try discriminate.
    injection H1 as <-. injection H2 as <-.
    assert (G : gather (map d targets1 ++ map d targets2) = Resolved (v1 ++ v2))
      by (apply gather_app_Resolved; eauto).
    rewrite G. f_equal. apply matched_app.
    exact (gather_Resolved_length _ _ _ G1).
Qed.

(** ** The order of the patterns *)

Lemma existsb_Permutation {A : Type} (f : A -> bool) (l l' : list A) :
  Permutation l l' -> existsb f l = existsb f l'.
Proof.
  induction 1 as [| x l l' _ IH | x y l | l l' l'' _ IH1 _ IH2]; simpl.
  - reflexivity.
  - now rewrite IH.
  - now destruct (f x), (f y).
  - now rewrite IH1.
Qed.

Lemma sortPatterns_Permutation (patterns patterns' : list TargetPattern) :
  Permutation patterns patterns' ->
  Permutation (inclusionPatterns (sortPatterns patterns))
              (inclusionPatterns (sortPatterns patterns'))
  /\ Permutation (exclusionPatterns (sortPatterns patterns))
                 (exclusionPatterns (sortPatterns patterns'))
  /\ Permutation (advancedPatterns (sortPatterns patterns))
                 (advancedPatterns (sortPatterns patterns')).
Proof.
  intros P. rewrite !sortPatterns_classify. simpl.
  repeat split; now apply Permutation_flat_map.
Qed.

Lemma clauses_Permutation (patterns patterns' : list TargetPattern) (t : string) :
  Permutation patterns patterns' ->
  exclusionClause patterns t = exclusionClause patterns' t
  /\ inclusionClause patterns t = inclusionClause patterns' t.
Proof.
  intros P. destruct (sortPatterns_Permutation _ _ P) as [I [E A]].
  unfold exclusionClause, inclusionClause. cbv zeta.
  rewrite !picomatch_any.
  rewrite (existsb_Permutation _ _ _ I), (existsb_Permutation _ _ _ E).
  rewrite (Permutation_length I), (Permutation_length E), (Permutation_length A).
  now split.
Qed.

Lemma deterministic_patterns_Forall (l : list TargetPattern) :
  deterministic_patterns l <-> Forall deterministic_pattern l.
Proof.
  induction l as [|p r IH]; simpl.
  - split; [constructor | trivial].
  - rewrite IH. split.
    + intros [Hp Hr]. now constructor.
    + intros H. inversion H. now split.
Qed.

Lemma deterministic_Permutation (l l' : list TargetPattern) :
  Permutation l l' -> deterministic_patterns l -> deterministic_patterns l'.
Proof.
  intros P. rewrite !deterministic_patterns_Forall.
  now apply Permutation_Forall.
Qed.

Lemma advanced_deterministic (patterns : list TargetPattern) (ap : AdvancedTargetPattern) :
  deterministic_patterns patterns ->
  In ap (advancedPatterns (sortPatterns patterns)) ->
  forall t s s',
    fst (generateAdvancedMatcher ap t s) = fst (generateAdvancedMatcher ap t s').
Proof.
  intros D Hap t s s'. apply sortPatterns_advanced_In in Hap.
  destruct (deterministic_In _ _ D Hap) as [Df Db].
  rewrite !generateAdvancedMatcher_source.
  pose proof (decision_deterministic _ Db t s s') as B.
  destruct (generateMatchingFunction (basePatterns ap) t s) as [r1 z1],
           (generateMatchingFunction (basePatterns ap) t s') as [r1' z1'].
  simpl in B. subst r1'. destruct r1 as [[] | e |]; try reflexivity.
  unfold invoke. pose proof (Df t (world z1) (world z1')) as F.
  destruct (advancedMatcher ap t (world z1)), (advancedMatcher ap t (world z1')).
  exact F.
Qed.

Lemma rejections_Permutation {A : Type} (d d' : list (Promise A)) :
  Permutation d d' -> Permutation (rejections d) (rejections d').
Proof.
  induction 1 as [| x l l' _ IH | x y l | l l' l'' _ IH1 _ IH2]; simpl.
  - constructor.
  - destruct x; auto.
  - destruct x, y; simpl; try apply Permutation_refl. apply perm_swap.
  - now transitivity (rejections l').
Qed.

Lemma values_Permutation {A : Type} (d d' : list (Promise A)) :
  Permutation d d' -> Permutation (values d) (values d').
Proof.
  induction 1 as [| x l l' _ IH | x y l | l l' l'' _ IH1 _ IH2]; simpl.
  - constructor.
  - destruct x; auto.
  - destruct x, y; simpl; try apply Permutation_refl. apply perm_swap.
  - now transitivity (values l').
Qed.

(** What the decision function makes of the gathered advanced decisions. *)
Lemma gathered_decision (ms : list (Async bool)) (s : State) :
  fst (await (Promise_all ms) (fun rs => ret (includes rs true)) s) =
  match gather (fst (issue ms s)) with
  | Resolved rs => Resolved (includes rs true)
  | Rejected e => Rejected e
  | Pending => Pending
  end.
Proof.
  unfold await. rewrite Promise_all_issue. now destruct (gather _).
Qed.

Lemma gathered_Permutation (d d' : list (Promise bool)) :
  Permutation d d' ->
  same_result
    match gather d with
    | Resolved rs => Resolved (includes rs true)
    | Rejected e => Rejected e
    | Pending => Pending
    end
    match gather d' with
    | Resolved rs => Resolved (includes rs true)
    | Rejected e => Rejected e
    | Pending => Pending
    end.
Proof.
  intros P. unfold gather.
  pose proof (rejections_Permutation _ _ P) as R.
  pose proof (existsb_Permutation is_pending _ _ P) as Q.
  pose proof (values_Permutation _ _ P) as V.
  destruct (rejections d) as [|e es], (rejections d') as [|e' es'].
  - rewrite <- Q. destruct (existsb is_pending d); simpl; [trivial |].
    unfold includes. now apply existsb_Permutation.
  - apply Permutation_nil in R. discriminate.
  - apply Permutation_sym, Permutation_nil in R. discriminate.
  - simpl. trivial.
Qed.

Lemma decision_Permutation (patterns patterns' : list TargetPattern) (t : string) (s s' : State) :
  Permutation patterns patterns' -> deterministic_patterns patterns ->
  same_result (fst (generateMatchingFunction patterns t s))
              (fst (generateMatchingFunction patterns' t s')).
Proof.
  intros P D. pose proof (deterministic_Permutation _ _ P D) as D'.
  decision_cases patterns t Ex Inc;
    destruct (clauses_Permutation _ _ t P) as [E I];
    rewrite Ex in E; try rewrite Inc in I; symmetry in E; try symmetry in I.
  - now rewrite (decision_included _ _ _ Ex Inc), (decision_included _ _ _ E I).
  - rewrite (decision_gathered _ _ _ Ex Inc), (decision_gathered _ _ _ E I).
    rewrite !gathered_decision, !map_map.
    rewrite (issue_fixed _ s), (issue_fixed _ s), !map_map.
    + apply gathered_Permutation. apply Permutation_map.
      now apply sortPatterns_Permutation.
    + intros m Hm s1 s2. apply in_map_iff in Hm. destruct Hm as [ap [<- Hap]].
      now apply (advanced_deterministic patterns').
    + intros m Hm s1 s2. apply in_map_iff in Hm. destruct Hm as [ap [<- Hap]].
      now apply (advanced_deterministic patterns).
  - now rewrite (decision_excluded _ _ _ Ex), (decision_excluded _ _ _ E).
Qed.

Lemma gather_same_result {A : Type} (d d' : list (Promise A)) :
  Forall2 same_result d d' -> same_result (gather d) (gather d').
Proof.
  intros F. unfold gather.
  assert (R : (rejections d = [] <-> rejections d' = [])
              /\ existsb is_pending d = existsb is_pending d'
              /\ (rejections d = [] -> existsb is_pending d = false ->
                  values d = values d')).
  { induction F as [| p p' l l' Hp _ IH]; simpl.
    - repeat split; auto.
    - destruct IH as [IR [IP IV]].
      destruct p, p'; simpl in Hp; try contradiction; simpl.
      + subst. repeat split; try tauto.
        intros H1 H2. now rewrite IV.
      + split; [split; discriminate |]. split; [exact IP | discriminate].
      + split; [exact IR |]. split; [reflexivity |]. intros _ H2. discriminate. }
  destruct R as [R [Q V]].
  destruct (rejections d) as [|e es], (rejections d') as [|e' es']; simpl; trivial.
  - rewrite <- Q. destruct (existsb is_pending d); simpl; [trivial |].
    now apply V.
  - destruct R as [R _]. specialize (R eq_refl). discriminate.
  - destruct R as [_ R]. specialize (R eq_refl). discriminate.
Qed.

(** X7.  With deterministic predicates the order of the patterns does not
    matter: a matcher built from a permutation of the pattern list settles
    every single query, and every batch query, as the original does. *)
Theorem pattern_order_is_irrelevant (patterns patterns' : list TargetPattern) :
  Permutation patterns patterns' -> deterministic_patterns patterns ->
  (forall target s s',
      same_result (fst (pathMatchesPatterns (new_PathMatcher patterns) target s))
                  (fst (pathMatchesPatterns (new_PathMatcher patterns') target s')))
  /\ (forall targets s s',
        same_result (fst (filterPathsByPatterns (new_PathMatcher patterns) targets s))
                    (fst (filterPathsByPatterns (new_PathMatcher patterns') targets s'))).
Proof.
  intros P D. pose proof (deterministic_Permutation _ _ P D) as D'. split.
  - intros target s s'. now apply decision_Permutation.
  - intros targets s s'.
    rewrite (batch_fixed patterns targets s s D),
            (batch_fixed patterns' targets s' s' D').
    assert (G : same_result
                  (gather (map (fun t => fst (generateMatchingFunction patterns
                                                (normalize t) s)) targets))
                  (gather (map (fun t => fst (generateMatchingFunction patterns'
                                                (normalize t) s')) targets))).
    { apply gather_same_result. induction targets as [|x l IH]; simpl; constructor.
      - now apply decision_Permutation.
      - exact IH. }
    destruct (gather _), (gather _); simpl in *; try contradiction; trivial.
    now subst.
Qed.

(** ** Adding a pattern *)

Lemma sortPatterns_insert (before after : list TargetPattern) (p : TargetPattern) :
  sortPatterns (before ++ p :: after) =
  mkSorted
    (inclusionPatterns (sortPatterns before) ++ inclusionPatterns (classify p)
       ++ inclusionPatterns (sortPatterns after))
    (exclusionPatterns (sortPatterns before) ++ exclusionPatterns (classify p)
       ++ exclusionPatterns (sortPatterns after))
    (advancedPatterns (sortPatterns before) ++ advancedPatterns (classify p)
       ++ advancedPatterns (sortPatterns after)).
Proof. rewrite !sortPatterns_classify. simpl. now rewrite !flat_map_app. Qed.

Lemma sortPatterns_app (before after : list TargetPattern) :
  sortPatterns (before ++ after) =
  mkSorted
    (inclusionPatterns (sortPatterns before) ++ inclusionPatterns (sortPatterns after))
    (exclusionPatterns (sortPatterns before) ++ exclusionPatterns (sortPatterns after))
    (advancedPatterns (sortPatterns before) ++ advancedPatterns (sortPatterns after)).
Proof. rewrite !sortPatterns_classify. simpl. now rewrite !flat_map_app. Qed.

(** Past the exclusion clause, the decision is made by the inclusion and the
    advanced buckets alone. *)
Lemma decision_same_buckets (a b : list TargetPattern) (t : string) (s : State) :
  inclusionPatterns (sortPatterns a) = inclusionPatterns (sortPatterns b) ->
  advancedPatterns (sortPatterns a) = advancedPatterns (sortPatterns b) ->
  exclusionClause a t = true -> exclusionClause b t = true ->
  generateMatchingFunction a t s = generateMatchingFunction b t s.
Proof.
  intros I A Ea Eb.
  assert (Inc : inclusionClause a t = inclusionClause b t).
  { unfold inclusionClause. cbv zeta. now rewrite I, A. }
  destruct (inclusionClause a t) eqn:Ia; symmetry in Inc.
  - now rewrite (decision_included _ _ _ Ea Ia), (decision_included _ _ _ Eb Inc).
  - rewrite (decision_gathered _ _ _ Ea Ia), (decision_gathered _ _ _ Eb Inc).
    now rewrite A.
Qed.

(** X8.  An exclusion string only takes paths away: wherever it is inserted
    in the pattern list, a path accepted with it is accepted without it, in
    the same state, and a path rejected without it is rejected with it. *)
Theorem exclusion_only_removes
    (before after : list TargetPattern) (str : BasicTargetPattern)
    (target : string) (s : State) :
  startsWith (normalize str) "!" = true ->
  let with_it := new_PathMatcher (before ++ Basic str :: after) in
  let without := new_PathMatcher (before ++ after) in
  (forall s',
      pathMatchesPatterns with_it target s = (Resolved true, s') ->
      pathMatchesPatterns without target s = (Resolved true, s'))
  /\ (fst (pathMatchesPatterns without target s) = Resolved false ->
      fst (pathMatchesPatterns with_it target s) = Resolved false).
Proof.
  intros M with_it without. subst with_it without.
  unfold pathMatchesPatterns, new_PathMatcher. simpl matcher.
  set (t := normalize target).
  pose proof (sortPatterns_insert before after (Basic str)) as W.
  pose proof (sortPatterns_app before after) as O.
  simpl in W. rewrite M in W. simpl in W.
  assert (I : inclusionPatterns (sortPatterns (before ++ Basic str :: after))
              = inclusionPatterns (sortPatterns (before ++ after)))
    by now rewrite W, O.
  assert (A : advancedPatterns (sortPatterns (before ++ Basic str :: after))
              = advancedPatterns (sortPatterns (before ++ after)))
    by now rewrite W, O.
  assert (E : exclusionClause (before ++ Basic str :: after) t = true ->
              exclusionClause (before ++ after) t = true).
  { rewrite !exclusionClause_true, W, O. simpl. intros H g Hg. apply H.
    apply in_app_or in Hg. apply in_or_app.
    destruct Hg as [Hg | Hg]; [now left | right; now right]. }
  split.
  - intros s' H. pose proof (resolved_true_survives _ _ _ _ H) as Ew.
    now rewrite <- (decision_same_buckets _ _ t s I A Ew (E Ew)).
  - intros H.
    destruct (exclusionClause (before ++ Basic str :: after) t) eqn:Ew.
    + now rewrite (decision_same_buckets _ _ t s I A Ew (E eq_refl)).
    + now rewrite (decision_excluded _ _ _ Ew).
Qed.

(** X9.  Once there is an inclusion or an advanced pattern, an inclusion
    string only adds paths: wherever it is inserted, a path accepted without
    it is accepted with it. *)
Theorem inclusion_only_adds
    (before after : list TargetPattern) (str : BasicTargetPattern)
    (target : string) (s : State) :
  startsWith (normalize str) "!" = false ->
  inclusionPatterns (sortPatterns (before ++ after)) <> []
  \/ advancedPatterns (sortPatterns (before ++ after)) <> [] ->
  fst (pathMatchesPatterns (new_PathMatcher (before ++ after)) target s)
  = Resolved true ->
  fst (pathMatchesPatterns (new_PathMatcher (before ++ Basic str :: after)) target s)
  = Resolved true.
Proof.
  intros M N. unfold pathMatchesPatterns, new_PathMatcher. simpl matcher.
  set (t := normalize target).
  pose proof (sortPatterns_insert before after (Basic str)) as W.
  pose proof (sortPatterns_app before after) as O.
  simpl in W. rewrite M in W. simpl in W.
  assert (A : advancedPatterns (sortPatterns (before ++ Basic str :: after))
              = advancedPatterns (sortPatterns (before ++ after)))
    by now rewrite W, O.
  assert (E : exclusionClause (before ++ Basic str :: after) t
              = exclusionClause (before ++ after) t).
  { unfold exclusionClause. cbv zeta. now rewrite W, O. }
  assert (Io : inclusionClause (before ++ after) t
               = picomatch (inclusionPatterns (sortPatterns (before ++ after))) t).
  { unfold inclusionClause. cbv zeta. revert N.
    destruct (inclusionPatterns (sortPatterns (before ++ after))) as [|i il];
      destruct (advancedPatterns (sortPatterns (before ++ after))) as [|a al];
      intros N; simpl; try reflexivity.
    destruct N as [N | N]; now elim N. }
  assert (I : inclusionClause (before ++ after) t = true ->
              inclusionClause (before ++ Basic str :: after) t = true).
  { rewrite Io. unfold inclusionClause. cbv zeta. rewrite !picomatch_matches.
    intros [g [Hg G]]. apply orb_true_iff. right. apply picomatch_matches.
    exists g. split; [| exact G]. rewrite W, O in *. simpl in *.
    apply in_app_or in Hg. apply in_or_app.
    destruct Hg as [Hg | Hg]; [now left | right; now right]. }
  intros H.
  assert (Eo : exclusionClause (before ++ after) t = true).
  { apply not_false_iff_true. intros X.
    rewrite (decision_excluded _ _ _ X) in H. discriminate. }
  assert (Ew : exclusionClause (before ++ Basic str :: after) t = true)
    by now rewrite E.
  destruct (bool_dec (inclusionClause (before ++ Basic str :: after) t) true)
    as [Iw | Iw].
  - now rewrite (decision_included _ _ _ Ew Iw).
  - apply not_true_is_false in Iw.
    rewrite (decision_gathered _ _ _ Ew Iw), A.
    destruct (bool_dec (inclusionClause (before ++ after) t) true) as [Ic | Ic].
    + rewrite (I Ic) in Iw. discriminate.
    + apply not_true_is_false in Ic.
      now rewrite (decision_gathered _ _ _ Eo Ic) in H.
Qed.

Lemma decision_same_clauses (a b : list TargetPattern) (t : string) (s : State) :
  exclusionClause a t = exclusionClause b t ->
  inclusionClause a t = inclusionClause b t ->
  advancedPatterns (sortPatterns a) = advancedPatterns (sortPatterns b) ->
  generateMatchingFunction a t s = generateMatchingFunction b t s.
Proof.
  intros E I A.
  destruct (bool_dec (exclusionClause a t) true) as [Ea | Ea].
  - assert (Eb : exclusionClause b t = true) by congruence.
    destruct (bool_dec (inclusionClause a t) true) as [Ia | Ia].
    + assert (Ib : inclusionClause b t = true) by congruence.
      now rewrite (decision_included _ _ _ Ea Ia), (decision_included _ _ _ Eb Ib).
    + apply not_true_is_false in Ia.
      assert (Ib : inclusionClause b t = false) by congruence.
      rewrite (decision_gathered _ _ _ Ea Ia), (decision_gathered _ _ _ Eb Ib).
      now rewrite A.
  - apply not_true_is_false in Ea.
    assert (Eb : exclusionClause b t = false) by congruence.
    now rewrite (decision_excluded _ _ _ Ea), (decision_excluded _ _ _ Eb).
Qed.

Lemma issue_ext {A : Type} (f g : string -> Async A) (targets : list string) (s : State) :
  (forall t s0, f t s0 = g t s0) ->
  issue (map f targets) s = issue (map g targets) s.
Proof.
  intros H. revert s. induction targets as [|x l IH]; intros s; simpl; [reflexivity |].
  rewrite H. destruct (g x s) as [p s1]. now rewrite IH.
Qed.

Lemma glob_test_repeated (l1 l2 : list BasicTargetPattern) (g : BasicTargetPattern)
    (t : string) :
  In g (l1 ++ l2) ->
  ((List.length (l1 ++ g :: l2) =? 0)%nat = (List.length (l1 ++ l2) =? 0)%nat)
  /\ picomatch (l1 ++ g :: l2) t = picomatch (l1 ++ l2) t.
Proof.
  intros H. split.
  - destruct l1; simpl; [| reflexivity]. destruct l2; [destruct H | reflexivity].
  - rewrite !picomatch_any, !existsb_app. simpl.
    destruct (glob g t) eqn:G; [| reflexivity]. simpl. rewrite orb_true_r.
    symmetry. rewrite <- existsb_app. apply existsb_exists. eauto.
Qed.

(** X10.  Repeating a string pattern changes nothing: wherever a string that
    is already in the list is inserted again, every single query and every
    batch query returns what it returned, in the same state. *)
Theorem repeated_string_changes_nothing
    (before after : list TargetPattern) (str : BasicTargetPattern) :
  In (Basic str) (before ++ after) ->
  let twice := new_PathMatcher (before ++ Basic str :: after) in
  let once := new_PathMatcher (before ++ after) in
  (forall target s,
      pathMatchesPatterns twice target s = pathMatchesPatterns once target s)
  /\ (forall targets s,
        filterPathsByPatterns twice targets s = filterPathsByPatterns once targets s).
Proof.
  intros H twice once. subst twice once.
  assert (D : forall t s,
             generateMatchingFunction (before ++ Basic str :: after) t s
             = generateMatchingFunction (before ++ after) t s).
  { intros t s.
    pose proof (sortPatterns_insert before after (Basic str)) as W.
    pose proof (sortPatterns_app before after) as O.
    assert (B : In (Basic str) before \/ In (Basic str) after)
      by now apply in_app_or.
    assert (K : forall l, In (Basic str) l ->
                  if startsWith (normalize str) "!"
                  then In (slice (normalize str) 1) (exclusionPatterns (sortPatterns l))
                  else In (normalize str) (inclusionPatterns (sortPatterns l))).
    { intros l Hl. rewrite sortPatterns_classify. simpl.
      destruct (startsWith (normalize str) "!") eqn:M; apply in_flat_map;
        exists (Basic str); (split; [exact Hl |]); simpl; rewrite M; now left. }
    simpl in W.
    apply decision_same_clauses; unfold exclusionClause, inclusionClause; cbv zeta;
      rewrite W, O; simpl;
      destruct (startsWith (normalize str) "!") eqn:M; simpl;
      try reflexivity.
    - destruct (glob_test_repeated
                  (exclusionPatterns (sortPatterns before))
                  (exclusionPatterns (sortPatterns after))
                  (slice (normalize str) 1) t) as [L P].
      { apply in_or_app. destruct B as [B | B]; [left | right]; now apply K. }
      now rewrite L, P.
    - destruct (glob_test_repeated
                  (inclusionPatterns (sortPatterns before))
                  (inclusionPatterns (sortPatterns after))
                  (normalize str) t) as [L P].
      { apply in_or_app. destruct B as [B | B]; [left | right]; now apply K. }
      now rewrite L, P. }
  split.
  - intros target s. apply D.
  - intros targets s. rewrite !filterPathsByPatterns_source. cbv zeta.
    simpl matcher.
    now rewrite (issue_ext _ (fun t => generateMatchingFunction (before ++ after)
                                         (normalize t)) targets s)
      by (intros; apply D).
Qed.

End PathMatcher.

Arguments Resolved {Reason A} a.
Arguments Rejected {Reason A} e.
Arguments Pending {Reason A}.
Arguments mkState {World Reason} world calls.
Arguments world {World Reason} s.
Arguments calls {World Reason} s.
Arguments Basic {World Reason} p.
Arguments Advanced {World Reason} p.
Arguments mkAdvanced {World Reason} basePatterns advancedMatcher.
Arguments mkSorted {World Reason} inclusionPatterns exclusionPatterns advancedPatterns.
Arguments inclusionPatterns {World Reason} s.
Arguments exclusionPatterns {World Reason} s.
Arguments advancedPatterns {World Reason} s.
Arguments basePatterns {World Reason} p.
Arguments advancedMatcher {World Reason} p.
Arguments mkPathMatcher {World Reason} matcher.
Arguments matcher {World Reason} p.
Arguments new_PathMatcher {World Reason} normalize picomatch race patterns.
Arguments pathMatchesPatterns {World Reason} normalize this target _.
Arguments filterPathsByPatterns {World Reason} normalize race this targets _.
Arguments generateMatchingFunction {World Reason} normalize picomatch race patterns _ _.
Arguments generateAdvancedMatcher {World Reason} normalize picomatch race pattern _ _.
Arguments sortPatterns {World Reason} normalize patterns.
Arguments invoke {World Reason} f _ _.


(** * The matcher at work

    The theorems above, applied to the reference capabilities, a world that
    counts the runs of the predicates, and reasons that are strings. *)

(** A predicate that holds of the paths containing [Test]. *)
Definition containsTest : Predicate nat string :=
  fun t w => (Resolved (str_includes t "Test"), S w).

(** A predicate that cannot read the file it is asked about. *)
Definition unreadable : Predicate nat string :=
  fun t w => (Rejected "EACCES", S w).

Definition start : State nat string := mkState 0 [].

Definition demoPatterns : list (TargetPattern nat string) :=
  [ Basic "**/*.js";
    Basic "!**/node_modules/**";
    Advanced (mkAdvanced [Basic "**/*.cls"] containsTest) ].

Definition demoMatcher : PathMatcher nat string :=
  new_PathMatcher slashes anyOf firstOf demoPatterns.

Definition brokenMatcher : PathMatcher nat string :=
  new_PathMatcher slashes anyOf firstOf
    [ Basic "**/*.js"; Advanced (mkAdvanced [] unreadable) ].

Lemma anyOf_any (globs : list string) (t : string) :
  anyOf globs t = existsb (fun g => wildcard g t) globs.
Proof. reflexivity. Qed.

Lemma firstOf_settles {R : Type} (e : R) (es : list R) : In (firstOf e es) (e :: es).
Proof. now left. Qed.

Example demo_sorted :
  sortPatterns slashes demoPatterns =
  mkSorted ["**/*.js"] ["**/node_modules/**"]
           [mkAdvanced [Basic "**/*.cls"] containsTest].
Proof. reflexivity. Qed.

Example demo_queries :
  pathMatchesPatterns slashes demoMatcher "src\lib\a.js" start = (Resolved true, start)
  /\ pathMatchesPatterns slashes demoMatcher "node_modules\x\a.js" start
     = (Resolved false, start)
  /\ pathMatchesPatterns slashes demoMatcher "src\FooTest.cls" start
     = (Resolved true, mkState 1 [("src/FooTest.cls", Resolved true)])
  /\ pathMatchesPatterns slashes demoMatcher "src\Foo.cls" start
     = (Resolved false, mkState 1 [("src/Foo.cls", Resolved false)])
  /\ pathMatchesPatterns slashes demoMatcher "README.md" start = (Resolved false, start).
Proof. repeat split; vm_compute; reflexivity. Qed.

Example demo_batch :
  filterPathsByPatterns slashes firstOf demoMatcher
    ["src\b.js"; "node_modules\a.js"; "src\FooTest.cls"; "src\a.js"] start
  = (Resolved ["src\b.js"; "src\FooTest.cls"; "src\a.js"],
     mkState 1 [("src/FooTest.cls", Resolved true)]).
Proof. vm_compute. reflexivity. Qed.

Example broken_queries :
  pathMatchesPatterns slashes brokenMatcher "a.js" start = (Resolved true, start)
  /\ pathMatchesPatterns slashes brokenMatcher "a.ts" start
     = (Rejected "EACCES", mkState 1 [("a.ts", Rejected "EACCES")])
  /\ fst (filterPathsByPatterns slashes firstOf brokenMatcher ["a.js"; "a.ts"] start)
     = Rejected "EACCES".
Proof. repeat split; vm_compute; reflexivity. Qed.

Lemma pathMatchesPatterns_composed_rule_witness :
  fst (pathMatchesPatterns slashes demoMatcher "src\FooTest.cls" start) = Resolved true.
Proof.
  apply (proj2 (pathMatchesPatterns_composed_rule nat string slashes anyOf firstOf
                  demoPatterns "src\FooTest.cls" start)).
  vm_compute. reflexivity.
Defined.

Lemma exclusion_dominates_witness :
  pathMatchesPatterns slashes demoMatcher "node_modules\x\a.js" start
  = (Resolved false, start).
Proof.
  apply (proj1 (proj2 (proj2
           (exclusion_dominates nat string slashes anyOf firstOf wildcard anyOf_any
              demoPatterns "node_modules\x\a.js" start)))).
  exists "**/node_modules/**". split; [simpl; now left | vm_compute; reflexivity].
Defined.

Lemma advanced_decision_is_conjunction_witness :
  let this :=
    new_PathMatcher slashes anyOf firstOf
      [Advanced (mkAdvanced [Basic "**/*.cls"] containsTest)] in
  fst (pathMatchesPatterns slashes this "Foo.txt" start) = Resolved false
  /\ fst (pathMatchesPatterns slashes this "Foo.cls" start) = Resolved false
  /\ fst (pathMatchesPatterns slashes this "FooTest.cls" start) = Resolved true.
Proof.
  destruct (proj2 (proj2 (proj2
             (advanced_decision_is_conjunction nat string slashes anyOf firstOf
                wildcard anyOf_any (mkAdvanced [] containsTest) "Foo.cls" start)))
             containsTest start
             eq_refl eq_refl eq_refl eq_refl eq_refl eq_refl eq_refl)
    as [Txt Cls].
  split; [exact Txt |]. apply Cls. intros p w. reflexivity.
Defined.

Lemma default_accept_witness :
  pathMatchesPatterns slashes
    (new_PathMatcher slashes anyOf firstOf
       ([Basic "!**/node_modules/**"] : list (TargetPattern nat string)))
    "src\a.js" start
  = (Resolved true, start).
Proof.
  apply (proj2 (default_accept nat string slashes anyOf firstOf wildcard anyOf_any
                  [Basic "!**/node_modules/**"] "src\a.js" start)).
  - intros p [<- | []]. exists "!**/node_modules/**". split; reflexivity.
  - intros g [<- | []]. vm_compute. reflexivity.
Defined.

Lemma filterPathsByPatterns_subsequence_witness :
  filterPathsByPatterns slashes firstOf
    (new_PathMatcher slashes anyOf firstOf [Basic "**/*.js"]) ["b.js"; "a.js"] start
  = (Resolved ["b.js"; "a.js"], start).
Proof.
  apply (proj2 (proj2 (proj2 (proj2
           (filterPathsByPatterns_subsequence nat string slashes anyOf firstOf
              wildcard anyOf_any demoMatcher [] start)))));
    reflexivity.
Defined.

Lemma predicate_failure_propagates_witness :
  exists new,
    calls (snd (pathMatchesPatterns slashes brokenMatcher "a.ts" start))
    = calls start ++ new
    /\ Forall (fun c => fst c = slashes "a.ts") new
    /\ (forall p e, In (p, Rejected e) new ->
        exists p' e',
          In (p', Rejected e') new
          /\ fst (pathMatchesPatterns slashes brokenMatcher "a.ts" start) = Rejected e').
Proof.
  exact (proj1 (predicate_failure_propagates nat string slashes anyOf firstOf
                  firstOf_settles
                  [Basic "**/*.js"; Advanced (mkAdvanced [] unreadable)] start)
               "a.ts").
Defined.

Lemma filterPathsByPatterns_idempotent_witness :
  let first :=
    filterPathsByPatterns slashes firstOf demoMatcher ["src\FooTest.cls"; "a.js"] start in
  fst first = Resolved ["src\FooTest.cls"; "a.js"]
  /\ fst (filterPathsByPatterns slashes firstOf demoMatcher
            ["src\FooTest.cls"; "a.js"] (snd first))
     = Resolved ["src\FooTest.cls"; "a.js"].
Proof.
  split; [vm_compute; reflexivity |].
  apply (proj1 (proj2
           (filterPathsByPatterns_idempotent nat string slashes anyOf firstOf
              demoPatterns ["src\FooTest.cls"; "a.js"] start
              (conj I (conj I (conj (conj (fun t w w' => eq_refl) (conj I I)) I)))))).
  vm_compute. reflexivity.
Defined.

Lemma globs_settle_without_predicates_witness :
  pathMatchesPatterns slashes brokenMatcher "a.js" start = (Resolved true, start).
Proof.
  apply (proj2 (globs_settle_without_predicates nat string slashes anyOf firstOf
                  wildcard anyOf_any
                  [Basic "**/*.js"; Advanced (mkAdvanced [] unreadable)] "a.js" start)).
  - intros g [].
  - exists "**/*.js". split; [simpl; now left | vm_compute; reflexivity].
Defined.

Lemma empty_basePatterns_predicate_alone_witness :
  generateAdvancedMatcher slashes anyOf firstOf (mkAdvanced [] unreadable) "a.ts" start
  = invoke unreadable "a.ts" start.
Proof.
  apply (proj2 (proj2
           (empty_basePatterns_predicate_alone nat string slashes anyOf firstOf
              (mkAdvanced [] unreadable) "a.ts" start eq_refl))).
Defined.


(** ** The further properties at work *)

(** A predicate that never answers. *)
Definition neverSettles : Predicate nat string :=
  fun t w => (Pending, S w).

Definition stringPatterns : list (TargetPattern nat string) :=
  [ Basic "**/*.js"; Basic "!**/node_modules/**" ].

Lemma demoPatterns_deterministic : deterministic_patterns nat string demoPatterns.
Proof. simpl. repeat split. Qed.

Lemma stringPatterns_strings (p : TargetPattern nat string) :
  In p stringPatterns -> exists str, p = Basic str.
Proof. intros [<- | [<- | []]]; eexists; reflexivity. Qed.

(** One predicate that never answers hangs the query, although another
    advanced pattern has accepted the path; both were called. *)
Example hanging_query :
  pathMatchesPatterns slashes
    (new_PathMatcher slashes anyOf firstOf
       [ Advanced (mkAdvanced [] containsTest); Advanced (mkAdvanced [] neverSettles) ])
    "FooTest.cls" start
  = (Pending, mkState 2 [("FooTest.cls", Resolved true); ("FooTest.cls", Pending)]).
Proof. vm_compute. reflexivity. Qed.

Lemma query_settles_as_its_calls_witness :
  exists new,
    calls (snd (pathMatchesPatterns slashes brokenMatcher "a.ts" start))
    = calls start ++ new
    /\ ((exists e, fst (pathMatchesPatterns slashes brokenMatcher "a.ts" start)
                   = Rejected e)
        <-> exists p e, In (p, Rejected e) new)
    /\ (fst (pathMatchesPatterns slashes brokenMatcher "a.ts" start) = Pending
        <-> (forall p e, ~ In (p, Rejected e) new) /\ exists p, In (p, Pending) new)
    /\ ((exists b, fst (pathMatchesPatterns slashes brokenMatcher "a.ts" start)
                   = Resolved b)
        <-> forall c, In c new -> is_resolved string (snd c) = true).
Proof.
  exact (proj1 (query_settles_as_its_calls nat string slashes anyOf firstOf
                  [Basic "**/*.js"; Advanced (mkAdvanced [] unreadable)] start)
               "a.ts").
Defined.

Lemma calls_bounded_by_predicates_witness :
  exists new,
    calls (snd (filterPathsByPatterns slashes firstOf demoMatcher
                  ["src\FooTest.cls"; "a.js"; "src\Foo.cls"] start))
    = calls start ++ new
    /\ List.length new <= 3 * 1.
Proof.
  exact (proj2 (calls_bounded_by_predicates nat string slashes anyOf firstOf
                  demoPatterns start)
               ["src\FooTest.cls"; "a.js"; "src\Foo.cls"]).
Defined.

Lemma strings_only_matcher_filters_witness :
  filterPathsByPatterns slashes firstOf
    (new_PathMatcher slashes anyOf firstOf stringPatterns)
    ["src\a.js"; "node_modules\b.js"; "src\c.ts"] start
  = (Resolved ["src\a.js"], start).
Proof.
  exact (proj2 (strings_only_matcher_filters nat string slashes anyOf firstOf
                  stringPatterns stringPatterns_strings)
               ["src\a.js"; "node_modules\b.js"; "src\c.ts"] start).
Defined.

Lemma inclusions_only_accept_matching_witness :
  exists b,
    pathMatchesPatterns slashes
      (new_PathMatcher slashes anyOf firstOf
         ([Basic "**/*.js"] : list (TargetPattern nat string)))
      "src\a.ts" start
    = (Resolved b, start)
    /\ (b = true <->
        exists str, In (Basic str) ([Basic "**/*.js"] : list (TargetPattern nat string))
                    /\ wildcard (slashes str) (slashes "src\a.ts") = true).
Proof.
  apply (proj2 (inclusions_only_accept_matching nat string slashes anyOf firstOf
                  wildcard anyOf_any [Basic "**/*.js"] "src\a.ts" start
                  (fun p H => match H with
                              | or_introl E => ex_intro _ "**/*.js" (conj (eq_sym E) eq_refl)
                              | or_intror F => match F with end
                              end))).
  discriminate.
Defined.

Lemma singleton_batch_is_single_query_witness :
  filterPathsByPatterns slashes firstOf brokenMatcher ["a.ts"] start
  = (Rejected "EACCES", mkState 1 [("a.ts", Rejected "EACCES")]).
Proof.
  exact (singleton_batch_is_single_query nat string slashes firstOf
           firstOf_settles brokenMatcher "a.ts" start).
Defined.

Lemma batch_of_concatenation_witness :
  fst (filterPathsByPatterns slashes firstOf demoMatcher
         (["src\FooTest.cls"; "x.md"] ++ ["a.js"]) start)
  = Resolved (["src\FooTest.cls"] ++ ["a.js"]).
Proof.
  apply (proj2 (batch_of_concatenation nat string slashes anyOf firstOf
                  demoPatterns ["src\FooTest.cls"; "x.md"] ["a.js"] start
                  demoPatterns_deterministic
                  (["src\FooTest.cls"] ++ ["a.js"]))).
  exists ["src\FooTest.cls"], ["a.js"].
  split; [| split]; [intros s1 | intros s2 |]; reflexivity.
Defined.

Lemma pattern_order_is_irrelevant_witness :
  same_result string
    (fst (pathMatchesPatterns slashes demoMatcher "src\FooTest.cls" start))
    (fst (pathMatchesPatterns slashes
            (new_PathMatcher slashes anyOf firstOf
               [ Advanced (mkAdvanced [Basic "**/*.cls"] containsTest);
                 Basic "!**/node_modules/**";
                 Basic "**/*.js" ])
            "src\FooTest.cls" start)).
Proof.
  apply (proj1 (pattern_order_is_irrelevant nat string slashes anyOf firstOf
                  wildcard anyOf_any demoPatterns
                  [ Advanced (mkAdvanced [Basic "**/*.cls"] containsTest);
                    Basic "!**/node_modules/**";
                    Basic "**/*.js" ]
                  (Permutation_rev demoPatterns) demoPatterns_deterministic)).
Defined.

Lemma exclusion_only_removes_witness :
  fst (pathMatchesPatterns slashes
         (new_PathMatcher slashes anyOf firstOf
            ([Basic "**/*.js"] ++ Basic "!**/node_modules/**" :: []
             : list (TargetPattern nat string)))
         "src\a.ts" start) = Resolved false.
Proof.
  apply (proj2 (exclusion_only_removes nat string slashes anyOf firstOf
                  wildcard anyOf_any [Basic "**/*.js"] [] "!**/node_modules/**"
                  "src\a.ts" start eq_refl)).
  reflexivity.
Defined.

Lemma inclusion_only_adds_witness :
  fst (pathMatchesPatterns slashes
         (new_PathMatcher slashes anyOf firstOf
            ([Basic "**/*.js"] ++ Basic "**/*.ts" :: []
             : list (TargetPattern nat string)))
         "src\a.js" start) = Resolved true.
Proof.
  apply (inclusion_only_adds nat string slashes anyOf firstOf
           wildcard anyOf_any [Basic "**/*.js"] [] "**/*.ts" "src\a.js" start eq_refl).
  - left. discriminate.
  - reflexivity.
Defined.

Lemma repeated_string_changes_nothing_witness :
  filterPathsByPatterns slashes firstOf
    (new_PathMatcher slashes anyOf firstOf
       (stringPatterns ++ Basic "**/*.js" :: [])) ["a.js"; "b.ts"] start
  = filterPathsByPatterns slashes firstOf
      (new_PathMatcher slashes anyOf firstOf (stringPatterns ++ []))
      ["a.js"; "b.ts"] start.
Proof.
  exact (proj2 (repeated_string_changes_nothing nat string slashes anyOf firstOf
                  wildcard anyOf_any stringPatterns [] "**/*.js"
                  (or_introl eq_refl))
               ["a.js"; "b.ts"] start).
Defined.


(** * ForkEvent: the fork of an [ApexPathExpander]

    [com.salesforce.graph.ops.expander.ForkEvent], an immutable value with
    [equals] and a [hashCode] computed once by its constructor. *)

Module ForkEvent.

Local Open Scope Z_scope.

(** Java's [int]: an integer read modulo 2^32, in two's complement. *)
Definition int (z : Z) : Z := (z + 2 ^ 31) mod 2 ^ 32 - 2 ^ 31.

(** [Long.hashCode()], [(int)(value ^ (value >>> 32))], of a 64-bit value. *)
Definition Long_hashCode (value : Z) : Z :=
  int (Z.lxor value ((value mod 2 ^ 64) / 2 ^ 32)).

(** [Arrays.hashCode(Object[])], which [Objects.hash] returns, on the hash
    codes of the elements, [None] standing for a null element. *)
Definition Arrays_hashCode (a : list (option Z)) : Z :=
  fold_left
    (fun result element =>
       int (31 * result + match element with None => 0 | Some h => h end))
    a 1.

(** [Objects.equals(a, b)], [(a == b) || (a != null && a.equals(b))], on
    nullable references: [same] is [==], [equals] the method of the class. *)
Definition Objects_equals {T : Type} (same : forall a b : T, {a = b} + {a <> b})
    (equals : T -> option T -> bool) (a b : option T) : bool :=
  match a with
  | None => match b with None => true | Some _ => false end
  | Some x =>
      match b with
      | Some y => if same x y then true else equals x b
      | None => equals x None
      end
  end.

(** [Objects.equals] on two [Long]s: [Long.equals] compares the values, and
    so answers [true] on a reference and itself. *)
Definition Long_Objects_equals (a b : option Z) : bool :=
  match a, b with
  | None, None => true
  | Some x, Some y => Z.eqb x y
  | _, _ => false
  end.

Section Vertices.

(** References to vertices, with their [==], [equals] and [hashCode]. *)
Variable PathVertex : Type.
Variable MethodVertex : Type.
Variable PathVertex_same : forall a b : PathVertex, {a = b} + {a <> b}.
Variable MethodVertex_same : forall a b : MethodVertex, {a = b} + {a <> b}.
Variable PathVertex_equals : PathVertex -> option PathVertex -> bool.
Variable MethodVertex_equals : MethodVertex -> option MethodVertex -> bool.
Variable PathVertex_hashCode : PathVertex -> Z.
Variable MethodVertex_hashCode : MethodVertex -> Z.

Record ForkEvent : Type := mkForkEvent {
  apexPathExpanderId : option Z;
  pathVertex : option PathVertex;
  methodVertex : option MethodVertex;
  hash : Z
}.

(** The constructor. *)
Definition new_ForkEvent (apexPathExpanderId : option Z)
    (pathVertex : option PathVertex) (methodVertex : option MethodVertex) : ForkEvent :=
  mkForkEvent apexPathExpanderId pathVertex methodVertex
    (Arrays_hashCode
       [ option_map Long_hashCode apexPathExpanderId;
         option_map PathVertex_hashCode pathVertex;
         option_map MethodVertex_hashCode methodVertex ]).

Definition deepClone (this : ForkEvent) : ForkEvent := this.

Definition getPathVertex (this : ForkEvent) : option PathVertex := pathVertex this.

Definition getMethodVertex (this : ForkEvent) : option MethodVertex := methodVertex this.

(** What [equals] can be handed: null, a [ForkEvent], or an object of
    another class. *)
Inductive Object : Type :=
| null
| aForkEvent (o : ForkEvent)
| ofAnotherClass.

(** [equals(Object o)].  The test [this == o] that comes first is left to
    the comparison of the fields, which answers [true] on an object and
    itself ([equals_itself] below). *)
Definition equals (this : ForkEvent) (o : Object) : bool :=
  match o with
  | null => false
  | ofAnotherClass => false
  | aForkEvent forkEvent =>
      Long_Objects_equals (apexPathExpanderId this) (apexPathExpanderId forkEvent)
      && Objects_equals PathVertex_same PathVertex_equals
           (pathVertex this) (pathVertex forkEvent)
      && Objects_equals MethodVertex_same MethodVertex_equals
           (methodVertex this) (methodVertex forkEvent)
  end.

Definition hashCode (this : ForkEvent) : Z := hash this.

(** ** Properties *)

Lemma int_range (z : Z) : - 2 ^ 31 <= int z < 2 ^ 31.
Proof.
  unfold int. pose proof (Z.mod_pos_bound (z + 2 ^ 31) (2 ^ 32)). lia.
Qed.

Lemma Objects_equals_itself {T : Type} (same : forall a b : T, {a = b} + {a <> b})
    (eq : T -> option T -> bool) (a : option T) :
  Objects_equals same eq a a = true.
Proof.
  destruct a as [x |]; simpl; [| reflexivity].
  destruct (same x x) as [_ | N]; [reflexivity | now elim N].
Qed.

Lemma Long_Objects_equals_eq (a b : option Z) :
  Long_Objects_equals a b = true <-> a = b.
Proof.
  destruct a as [x |], b as [y |]; simpl; split; intros H;
    try discriminate; try reflexivity.
  - apply Z.eqb_eq in H. now subst.
  - injection H as ->. apply Z.eqb_refl.
Qed.

Lemma equals_itself (this : ForkEvent) : equals this (aForkEvent this) = true.
Proof.
  unfold equals. rewrite !Objects_equals_itself.
  now rewrite (proj2 (Long_Objects_equals_eq _ _) eq_refl).
Qed.

Section Contract.

(** What [Object] asks of the classes of the vertices. *)
Hypothesis PathVertex_not_null : forall x, PathVertex_equals x None = false.
Hypothesis MethodVertex_not_null : forall x, MethodVertex_equals x None = false.
Hypothesis PathVertex_consistent :
  forall x y, PathVertex_equals x (Some y) = true ->
              PathVertex_hashCode x = PathVertex_hashCode y.
Hypothesis MethodVertex_consistent :
  forall x y, MethodVertex_equals x (Some y) = true ->
              MethodVertex_hashCode x = MethodVertex_hashCode y.

Lemma Objects_equals_hashCode {T : Type} (same : forall a b : T, {a = b} + {a <> b})
    (eq : T -> option T -> bool) (h : T -> Z) (a b : option T) :
  (forall x, eq x None = false) ->
  (forall x y, eq x (Some y) = true -> h x = h y) ->
  Objects_equals same eq a b = true -> option_map h a = option_map h b.
Proof.
  intros N C. destruct a as [x |], b as [y |]; simpl; try discriminate.
  - destruct (same x y) as [-> | _]; [reflexivity |].
    intros H. now rewrite (C _ _ H).
  - now rewrite N.
  - reflexivity.
Qed.

(** X11.  Equal fork events have equal hash codes, and a hash code is an
    [int]: when the classes of the vertices keep the contract of [equals]
    and [hashCode] (nothing equals null; equal vertices have equal hash
    codes), so does [ForkEvent]. *)
Theorem equal_events_equal_hashCodes
    (id id' : option Z) (pv pv' : option PathVertex) (mv mv' : option MethodVertex) :
  let this := new_ForkEvent id pv mv in
  let that := new_ForkEvent id' pv' mv' in
  (equals this (aForkEvent that) = true -> hashCode this = hashCode that)
  /\ - 2 ^ 31 <= hashCode this < 2 ^ 31.
Proof.
  intros this that. split.
  - unfold equals, hashCode, this, that, new_ForkEvent. cbn [apexPathExpanderId pathVertex methodVertex hash].
    intros H. apply andb_true_iff in H. destruct H as [H Hm].
    apply andb_true_iff in H. destruct H as [Hi Hp].
    apply Long_Objects_equals_eq in Hi. subst id'.
    now rewrite (Objects_equals_hashCode _ _ _ _ _ PathVertex_not_null
                   PathVertex_consistent Hp),
                (Objects_equals_hashCode _ _ _ _ _ MethodVertex_not_null
                   MethodVertex_consistent Hm).
  - unfold hashCode, this, new_ForkEvent, Arrays_hashCode.
    cbn [hash fold_left]. apply int_range.
Qed.

End Contract.

Section Equivalence.

Hypothesis PathVertex_not_null : forall x, PathVertex_equals x None = false.
Hypothesis MethodVertex_not_null : forall x, MethodVertex_equals x None = false.
Hypothesis PathVertex_symmetric :
  forall x y, PathVertex_equals x (Some y) = true -> PathVertex_equals y (Some x) = true.
Hypothesis MethodVertex_symmetric :
  forall x y, MethodVertex_equals x (Some y) = true -> MethodVertex_equals y (Some x) = true.
Hypothesis PathVertex_transitive :
  forall x y z, PathVertex_equals x (Some y) = true -> PathVertex_equals y (Some z) = true ->
                PathVertex_equals x (Some z) = true.
Hypothesis MethodVertex_transitive :
  forall x y z, MethodVertex_equals x (Some y) = true -> MethodVertex_equals y (Some z) = true ->
                MethodVertex_equals x (Some z) = true.

Lemma Objects_equals_symmetric {T : Type} (same : forall a b : T, {a = b} + {a <> b})
    (eq : T -> option T -> bool) (a b : option T) :
  (forall x, eq x None = false) ->
  (forall x y, eq x (Some y) = true -> eq y (Some x) = true) ->
  Objects_equals same eq a b = true -> Objects_equals same eq b a = true.
Proof.
  intros N S. destruct a as [x |], b as [y |]; simpl; try discriminate; auto.
  - destruct (same x y) as [-> | _].
    + destruct (same y y) as [_ | M]; [reflexivity | now elim M].
    + intros H. destruct (same y x); [reflexivity | now apply S].
  - now rewrite N.
Qed.

Lemma Objects_equals_transitive {T : Type} (same : forall a b : T, {a = b} + {a <> b})
    (eq : T -> option T -> bool) (a b c : option T) :
  (forall x, eq x None = false) ->
  (forall x y z, eq x (Some y) = true -> eq y (Some z) = true -> eq x (Some z) = true) ->
  Objects_equals same eq a b = true -> Objects_equals same eq b c = true ->
  Objects_equals same eq a c = true.
Proof.
  intros N R. destruct a as [x |], b as [y |], c as [z |]; simpl;
    try discriminate; auto; try (now rewrite N).
  destruct (same x y) as [-> | _]; [auto |].
  destruct (same y z) as [-> | _].
  - intros H1 _. now destruct (same x z).
  - intros H1 H2. destruct (same x z); [reflexivity |]. now apply (R x y z).
Qed.

(** X12.  [equals] is an equivalence on fork events, and holds of nothing
    else: it is reflexive whatever the vertices' [equals] does, symmetric
    and transitive when theirs is, and false on null and on an object of
    another class. *)
Theorem equals_is_an_equivalence (a b c : ForkEvent) :
  equals a (aForkEvent a) = true
  /\ (equals a (aForkEvent b) = true -> equals b (aForkEvent a) = true)
  /\ (equals a (aForkEvent b) = true -> equals b (aForkEvent c) = true ->
      equals a (aForkEvent c) = true)
  /\ equals a null = false
  /\ equals a ofAnotherClass = false
  /\ equals a (aForkEvent (deepClone a)) = true.
Proof.
  split; [apply equals_itself |]. split; [| split].
  - unfold equals. intros H.
    apply andb_true_iff in H. destruct H as [H Hm].
    apply andb_true_iff in H. destruct H as [Hi Hp].
    apply Long_Objects_equals_eq in Hi.
    rewrite (proj2 (Long_Objects_equals_eq _ _) (eq_sym Hi)).
    rewrite (Objects_equals_symmetric _ _ _ _ PathVertex_not_null
               PathVertex_symmetric Hp).
    now rewrite (Objects_equals_symmetric _ _ _ _ MethodVertex_not_null
                   MethodVertex_symmetric Hm).
  - unfold equals. intros H H'.
    apply andb_true_iff in H. destruct H as [H Hm].
    apply andb_true_iff in H. destruct H as [Hi Hp].
    apply andb_true_iff in H'. destruct H' as [H' Hm'].
    apply andb_true_iff in H'. destruct H' as [Hi' Hp'].
    apply Long_Objects_equals_eq in Hi, Hi'.
    rewrite (proj2 (Long_Objects_equals_eq _ _) (eq_trans Hi Hi')).
    rewrite (Objects_equals_transitive _ _ _ _ _ PathVertex_not_null
               PathVertex_transitive Hp Hp').
    now rewrite (Objects_equals_transitive _ _ _ _ _ MethodVertex_not_null
                   MethodVertex_transitive Hm Hm').
  - repeat split. apply equals_itself.
Qed.

End Equivalence.

End Vertices.

(** ** An instance: vertices numbered by their line, equal on the same line *)

Definition line_equals (x : nat) (o : option nat) : bool :=
  match o with
  | Some y => Nat.eqb (x / 10) (y / 10)
  | None => false
  end.

Definition line_hashCode (x : nat) : Z := Z.of_nat (x / 10).

Lemma line_consistent (x y : nat) :
  line_equals x (Some y) = true -> line_hashCode x = line_hashCode y.
Proof. unfold line_equals, line_hashCode. intros H. apply Nat.eqb_eq in H. now rewrite H. Qed.

Lemma line_symmetric (x y : nat) :
  line_equals x (Some y) = true -> line_equals y (Some x) = true.
Proof. unfold line_equals. rewrite !Nat.eqb_eq. congruence. Qed.

Lemma line_transitive (x y z : nat) :
  line_equals x (Some y) = true -> line_equals y (Some z) = true ->
  line_equals x (Some z) = true.
Proof. unfold line_equals. rewrite !Nat.eqb_eq. congruence. Qed.

Example Long_hashCode_values :
  Long_hashCode 1 = 1 /\ Long_hashCode (-1) = 0
  /\ Long_hashCode (2 ^ 32) = 1 /\ Long_hashCode (2 ^ 63 - 1) = - 2 ^ 31.
Proof. repeat split. Qed.

Lemma equal_events_equal_hashCodes_witness :
  hashCode nat nat
    (new_ForkEvent nat nat line_hashCode line_hashCode (Some 7) (Some 41%nat) None)
  = hashCode nat nat
      (new_ForkEvent nat nat line_hashCode line_hashCode (Some 7) (Some 45%nat) None).
Proof.
  apply (proj1 (equal_events_equal_hashCodes nat nat Nat.eq_dec Nat.eq_dec
                  line_equals line_equals line_hashCode line_hashCode
                  (fun x => eq_refl) (fun x => eq_refl) line_consistent line_consistent
                  (Some 7) (Some 7) (Some 41%nat) (Some 45%nat) None None)).
  reflexivity.
Defined.

Lemma equals_is_an_equivalence_witness :
  equals nat nat Nat.eq_dec Nat.eq_dec line_equals line_equals
    (new_ForkEvent nat nat line_hashCode line_hashCode (Some 7) (Some 45%nat) None)
    (aForkEvent nat nat
       (new_ForkEvent nat nat line_hashCode line_hashCode (Some 7) (Some 41%nat) None))
  = true.
Proof.
  apply (proj1 (proj2
           (equals_is_an_equivalence nat nat Nat.eq_dec Nat.eq_dec
              line_equals line_equals
              (fun x => eq_refl) (fun x => eq_refl) line_symmetric line_symmetric
              line_transitive line_transitive
              (new_ForkEvent nat nat line_hashCode line_hashCode (Some 7) (Some 41%nat) None)
              (new_ForkEvent nat nat line_hashCode line_hashCode (Some 7) (Some 45%nat) None)
              (new_ForkEvent nat nat line_hashCode line_hashCode None None None)))).
  reflexivity.
Defined.

End ForkEvent.


(** * OutputProcessor: the messages in the output of the Java modules

    [getEventsFromString] of [OutputProcessor], which finds the JSON between
    a start tag and an end tag, and [isRealtimeOutput].  JavaScript strings
    are sequences of UTF-16 code units. *)

Module OutputProcessor.

Definition CodeUnit : Type := N.
Definition JSString : Type := list CodeUnit.

(** The code units of a string of ASCII characters. *)
Definition units (s : string) : JSString :=
  map N_of_ascii (list_ascii_of_string s).

Definition MESSAGE_START_TAG : JSString := units "SFDX-START".
Definition MESSAGE_END_TAG : JSString := units "SFDX-END".
Definition REALTIME_MESSAGE_START_TAG : JSString := units "SFCA-REALTIME-START".
Definition REALTIME_MESSAGE_END_TAG : JSString := units "SFCA-REALTIME-END".

(** [RuleEvent] of [types.d.ts]. *)
Record RuleEvent : Type := mkRuleEvent {
  messageKey : JSString;
  args : list JSString;
  type : JSString;
  handler : JSString;
  verbose : bool;
  time : Z;
  internalLog : option JSString
}.

(** [s.startsWith(p)] *)
Fixpoint startsWith (s p : JSString) {struct p} : bool :=
  match p with
  | [] => true
  | c :: p' =>
      match s with
      | [] => false
      | d :: s' => N.eqb c d && startsWith s' p'
      end
  end.

(** [s.substring(a, b)]: both indices are clamped to the length and swapped
    when [a > b]. *)
Definition substring (s : JSString) (a b : nat) : JSString :=
  let a' := Nat.min a (List.length s) in
  let b' := Nat.min b (List.length s) in
  firstn (Nat.max a' b' - Nat.min a' b') (skipn (Nat.min a' b') s).

(** ** Regular expressions, as far as the pattern of the source goes *)

(** The line terminators, which [.] does not match: LF, CR, LS, PS. *)
Definition isLineTerminator (c : CodeUnit) : bool :=
  N.eqb c 10 || N.eqb c 13 || N.eqb c 8232 || N.eqb c 8233.

(** The terms of the pattern: [^], a character that stands for itself, and
    the greedy [.*] (the group around it captures and does not change what
    is matched). *)
Inductive Term : Type :=
| Caret
| Char (c : CodeUnit)
| DotStar.

(** [.*] followed by [k]: as many characters as the line has are taken
    first, and given back one by one until [k] matches. *)
Fixpoint dotStar (k : nat -> JSString -> option nat) (index : nat) (rest : JSString) : option nat :=
  match rest with
  | [] => k index rest
  | d :: rest' =>
      if isLineTerminator d then k index rest
      else
        match dotStar k (S index) rest' with
        | Some e => Some e
        | None => k index rest
        end
  end.

(** The match of a pattern at [index], where [rest] is the input from
    there: the index where the match ends.  Without the flag [m], [^] holds
    at the start of the input only. *)
Fixpoint matches (pattern : list Term) : nat -> JSString -> option nat :=
  match pattern with
  | [] => fun index _ => Some index
  | Caret :: pattern' => fun index rest =>
      if Nat.eqb index 0 then matches pattern' index rest else None
  | Char c :: pattern' => fun index rest =>
      match rest with
      | [] => None
      | d :: rest' => if N.eqb c d then matches pattern' (S index) rest' else None
      end
  | DotStar :: pattern' => dotStar (matches pattern')
  end.

(** [regex.exec] from [index]: the first index from there on at which the
    pattern matches, with the end of the match. *)
Fixpoint exec (pattern : list Term) (index : nat) (rest : JSString) : option (nat * nat) :=
  match matches pattern index rest with
  | Some e => Some (index, e)
  | None =>
      match rest with
      | [] => None
      | _ :: rest' => exec pattern (S index) rest'
      end
  end.

(** The loop of [str.match(regex)] for a regex with the flag [g]: the
    matched texts, each search starting where the last match ended (one
    further after an empty match). *)
Fixpoint matchAll (fuel : nat) (pattern : list Term) (str : JSString) (lastIndex : nat) : list JSString :=
  match fuel with
  | 0 => []
  | S fuel' =>
      if Nat.ltb (List.length str) lastIndex then []
      else
        match exec pattern lastIndex (skipn lastIndex str) with
        | None => []
        | Some (i, e) =>
            substring str i e
            :: matchAll fuel' pattern str (if Nat.eqb e i then S e else e)
        end
  end.

(** [str.match(regex)]: null when nothing matches.  Every search but the
    last moves [lastIndex] forward, so there are at most [length + 1] of
    them before the one that fails. *)
Definition String_match (str : JSString) (pattern : list Term) : option (list JSString) :=
  match matchAll (S (S (List.length str))) pattern str 0 with
  | [] => None
  | items => Some items
  end.

(** The pattern of [getEventsFromString]: [^], the start tag, a group
    around [.*], the end tag; for tags whose characters stand for themselves
    in a pattern. *)
Definition tagged (startTag endTag : JSString) : list Term :=
  Caret :: map Char startTag ++ DotStar :: map Char endTag.

(** The characters that do not stand for themselves in a pattern. *)
Definition isSyntaxCharacter (c : CodeUnit) : bool :=
  existsb (N.eqb c) (units "^$\.*+?()[]{}|").

(** A tag that reads the same in a pattern as in a string. *)
Definition plain (tag : JSString) : Prop :=
  forallb (fun c => negb (isSyntaxCharacter c)) tag = true.

(** A text without a line break. *)
Definition oneLine (text : JSString) : Prop :=
  forallb (fun c => negb (isLineTerminator c)) text = true.

(** What is left of the output after a block: nothing, or a line break and
    anything. *)
Definition afterBlock (tail : JSString) : Prop :=
  tail = [] \/ exists d t, tail = d :: t /\ isLineTerminator d = true.

Section Parser.

(** [JSON.parse(jsonStr) as RuleEvent[]]; [None] when it throws. *)
Variable JSON_parse : JSString -> option (list RuleEvent).

(** What a call leaves: the value it returns or the exception it throws,
    and the lines it traced. *)
Inductive Completion (A : Type) : Type :=
| Returned (a : A)
| Thrown.
Arguments Returned {A} a.
Arguments Thrown {A}.

Definition NO_EVENTS : JSString := units "No events to log".

(** The body of [regexMatch.forEach]: a parse that throws ends the loop. *)
Fixpoint pushEvents (headerLength tailLength : nat) (items : list JSString)
    (events : list RuleEvent) : Completion (list RuleEvent) :=
  match items with
  | [] => Returned events
  | item :: items' =>
      let jsonStr := substring item headerLength (List.length item - tailLength) in
      match JSON_parse jsonStr with
      | None => Thrown
      | Some parsed => pushEvents headerLength tailLength items' (events ++ parsed)
      end
  end.

Definition getEventsFromString (str startTag endTag : JSString)
    : Completion (list RuleEvent) * list JSString :=
  let events : list RuleEvent := [] in
  let regex := tagged startTag endTag in
  let headerLength := List.length startTag in
  let tailLength := List.length endTag in
  let regexMatch := String_match str regex in
  match regexMatch with
  | None => (Returned events, [NO_EVENTS])
  | Some items =>
      if Nat.ltb (List.length items) 1 then (Returned events, [NO_EVENTS])
      else (pushEvents headerLength tailLength items events, [])
  end.

Definition isRealtimeOutput (out : JSString) : bool :=
  startsWith out REALTIME_MESSAGE_START_TAG.

(** ** Properties *)

Lemma startsWith_app (p rest : JSString) : startsWith (p ++ rest) p = true.
Proof. induction p as [|c p IH]; simpl; [reflexivity |]. now rewrite N.eqb_refl. Qed.

Lemma matches_Chars (tag : JSString) (pattern : list Term) (index : nat) (rest : JSString) :
  matches (map Char tag ++ pattern) index (tag ++ rest)
  = matches pattern (index + List.length tag) rest.
Proof.
  revert index; induction tag as [|c tag IH]; intros index; simpl.
  - now rewrite Nat.add_0_r.
  - rewrite N.eqb_refl, IH. f_equal. lia.
Qed.

Lemma matches_Chars_fail (tag : JSString) (pattern : list Term) (index : nat) (rest : JSString) :
  startsWith rest tag = false -> matches (map Char tag ++ pattern) index rest = None.
Proof.
  revert index rest; induction tag as [|c tag IH]; intros index rest; simpl;
    [discriminate |].
  destruct rest as [|d rest]; [reflexivity |].
  destruct (N.eqb c d); simpl; [apply IH | reflexivity].
Qed.

Lemma exec_after_start (pattern : list Term) (rest : JSString) :
  forall index, 0 < index -> exec (Caret :: pattern) index rest = None.
Proof.
  induction rest as [|d rest IH]; intros index L; simpl;
    destruct index as [|n]; try lia; simpl; [reflexivity |].
  apply IH. lia.
Qed.

(** A search that does not start at the start of the input finds nothing;
    so the loop of [match] ends after the first search that succeeds. *)
Lemma matchAll_after_start (fuel : nat) (pattern : list Term) (str : JSString) (lastIndex : nat) :
  0 < lastIndex -> matchAll fuel (Caret :: pattern) str lastIndex = [].
Proof.
  intros L. destruct fuel as [|fuel]; simpl; [reflexivity |].
  destruct (Nat.ltb (List.length str) lastIndex); [reflexivity |].
  now rewrite exec_after_start.
Qed.

Lemma firstn_min_length {A : Type} (e : nat) (l : list A) :
  firstn (Nat.min e (List.length l)) l = firstn e l.
Proof.
  destruct (Nat.le_ge_cases e (List.length l)) as [L | L].
  - now rewrite Nat.min_l.
  - rewrite Nat.min_r by exact L. now rewrite firstn_all, firstn_all2.
Qed.

Lemma firstn_length_app {A : Type} (a b : list A) : firstn (List.length a) (a ++ b) = a.
Proof. induction a as [|x a IH]; simpl; [reflexivity | now rewrite IH]. Qed.

Lemma skipn_length_app {A : Type} (a b : list A) : skipn (List.length a) (a ++ b) = b.
Proof. induction a as [|x a IH]; simpl; [reflexivity | exact IH]. Qed.

Lemma matchAll_tagged (fuel : nat) (startTag endTag str : JSString) :
  matchAll (S fuel) (tagged startTag endTag) str 0 =
  match matches (tagged startTag endTag) 0 str with
  | Some e => [firstn e str]
  | None => []
  end.
Proof.
  cbn [matchAll]. change (Nat.ltb (List.length str) 0) with false. cbv iota.
  cbn [skipn].
  destruct (matches (tagged startTag endTag) 0 str) as [e |] eqn:M.
  - destruct str as [|d str]; cbn [exec]; rewrite M.
    + unfold tagged. rewrite matchAll_after_start by (destruct (Nat.eqb e 0) eqn:Z;
        [lia | apply Nat.eqb_neq in Z; lia]).
      unfold substring. simpl. now destruct e.
    + unfold tagged. rewrite matchAll_after_start by (destruct (Nat.eqb e 0) eqn:Z;
        [lia | apply Nat.eqb_neq in Z; lia]).
      unfold substring. f_equal. cbn [Nat.min skipn]. rewrite Nat.max_r by lia.
      rewrite Nat.sub_0_r. apply firstn_min_length.
  - destruct str as [|d str]; cbn [exec]; rewrite M; [reflexivity |].
    unfold tagged. now rewrite exec_after_start by lia.
Qed.

Lemma ends_fail (tag x tail : JSString) (index : nat) :
  forallb (fun c => negb (isLineTerminator c)) tag = true ->
  List.length x < List.length tag ->
  (tail = [] \/ exists d t, tail = d :: t /\ isLineTerminator d = true) ->
  matches (map Char tag) index (x ++ tail) = None.
Proof.
  revert x index; induction tag as [|c tag IH]; intros x index F L T; simpl in *;
    [lia |].
  apply andb_true_iff in F. destruct F as [Fc F].
  destruct x as [|d x]; simpl.
  - destruct T as [-> | [d [t [-> Hd]]]]; [reflexivity |].
    destruct (N.eqb c d) eqn:E; [| reflexivity].
    apply N.eqb_eq in E. subst d. rewrite Hd in Fc. discriminate.
  - destruct (N.eqb c d); [| reflexivity]. apply IH; [exact F | simpl in L; lia | exact T].
Qed.

Lemma dotStar_suffix_fail (tag tail : JSString) :
  forallb (fun c => negb (isLineTerminator c)) tag = true ->
  (tail = [] \/ exists d t, tail = d :: t /\ isLineTerminator d = true) ->
  forall x index,
    List.length x < List.length tag ->
    dotStar (matches (map Char tag)) index (x ++ tail) = None.
Proof.
  intros F T. induction x as [|d x IH]; intros index L.
  - simpl. destruct T as [-> | [d [t [-> Hd]]]]; simpl.
    + apply (ends_fail tag [] [] index F L). now left.
    + rewrite Hd. apply (ends_fail tag [] (d :: t) index F L). right. eauto.
  - cbn [app dotStar]. rewrite (IH (S index)) by (simpl in L; lia).
    pose proof (ends_fail tag (d :: x) tail index F L T) as K. cbn [app] in K.
    rewrite K. now destruct (isLineTerminator d).
Qed.

Lemma dotStar_payload (payload tag tail : JSString) :
  forallb (fun c => negb (isLineTerminator c)) payload = true ->
  forallb (fun c => negb (isLineTerminator c)) tag = true ->
  (tail = [] \/ exists d t, tail = d :: t /\ isLineTerminator d = true) ->
  forall index,
    dotStar (matches (map Char tag)) index (payload ++ tag ++ tail)
    = Some (index + List.length payload + List.length tag).
Proof.
  intros P F T. induction payload as [|c payload IH]; intros index.
  - cbn [app List.length]. rewrite Nat.add_0_r.
    pose proof (matches_Chars tag [] index tail) as K. rewrite app_nil_r in K.
    cbn [matches] in K.
    destruct tag as [|e tag'].
    + cbn [app]. destruct T as [-> | [d [t [-> Hd]]]]; cbn [dotStar].
      * exact K.
      * rewrite Hd. exact K.
    + cbn [app dotStar].
      pose proof F as F'. cbn [forallb] in F'. apply andb_true_iff in F'.
      destruct F' as [Fe _]. apply negb_true_iff in Fe. rewrite Fe.
      rewrite (dotStar_suffix_fail (e :: tag') tail F T tag' (S index))
        by (simpl; lia).
      exact K.
  - cbn [app dotStar forallb] in *. apply andb_true_iff in P. destruct P as [Pc P].
    apply negb_true_iff in Pc. rewrite Pc, (IH P (S index)). f_equal. simpl. lia.
Qed.

Lemma matches_framed (startTag payload endTag tail : JSString) :
  forallb (fun c => negb (isLineTerminator c)) payload = true ->
  forallb (fun c => negb (isLineTerminator c)) endTag = true ->
  (tail = [] \/ exists d t, tail = d :: t /\ isLineTerminator d = true) ->
  matches (tagged startTag endTag) 0 (startTag ++ payload ++ endTag ++ tail)
  = Some (List.length (startTag ++ payload ++ endTag)).
Proof.
  intros P F T. unfold tagged. cbn [matches Nat.eqb].
  rewrite matches_Chars. cbn [matches].
  rewrite (dotStar_payload payload endTag tail P F T).
  f_equal. rewrite !length_app. lia.
Qed.

(** X13.  Only output that begins with the start tag holds events: for any
    other output, the empty one included, [getEventsFromString] returns no
    event, whatever follows, and parses nothing.  So the events of real-time
    output are found only in output that [isRealtimeOutput] accepts.  At
    most one text is ever matched, a prefix of the output, however long the
    search goes on. *)
Theorem events_only_after_leading_tag (str startTag endTag : JSString) :
  plain startTag -> plain endTag ->
  (startsWith str startTag = false ->
   getEventsFromString str startTag endTag = (Returned [], [NO_EVENTS]))
  /\ (isRealtimeOutput str = false ->
      getEventsFromString str REALTIME_MESSAGE_START_TAG REALTIME_MESSAGE_END_TAG
      = (Returned [], [NO_EVENTS]))
  /\ (forall fuel,
        matchAll (S fuel) (tagged startTag endTag) str 0 = []
        \/ exists e, matchAll (S fuel) (tagged startTag endTag) str 0 = [firstn e str]).
Proof.
  intros _ _.
  assert (A : forall tag1 tag2, startsWith str tag1 = false ->
              getEventsFromString str tag1 tag2 = (Returned [], [NO_EVENTS])).
  { intros tag1 tag2 H. unfold getEventsFromString, String_match. cbv zeta.
    rewrite matchAll_tagged. unfold tagged at 1. cbn [matches Nat.eqb].
    now rewrite (matches_Chars_fail _ _ _ _ H). }
  split; [apply A |]. split; [apply A |].
  intros fuel. rewrite matchAll_tagged.
  destruct (matches (tagged startTag endTag) 0 str) as [e |]; [right | left]; eauto.
Qed.

(** X14.  A block is decoded to its payload: for output made of the start
    tag, a payload on one line, the end tag, and then nothing or a line
    break and anything, [getEventsFromString] returns what [JSON.parse]
    makes of the payload, and throws when it does.  The payload may contain
    tags: the last end tag of the first line closes the block, and what
    comes after the first line is not looked at. *)
Theorem block_decoded_to_its_payload (startTag payload endTag tail : JSString) :
  plain startTag -> plain endTag ->
  oneLine payload -> oneLine endTag -> afterBlock tail ->
  getEventsFromString (startTag ++ payload ++ endTag ++ tail) startTag endTag
  = (match JSON_parse payload with
     | Some events => Returned events
     | None => Thrown
     end, []).
Proof.
  intros _ _ P F T. unfold getEventsFromString, String_match. cbv zeta.
  rewrite matchAll_tagged, (matches_framed _ _ _ _ P F T).
  replace (firstn (List.length (startTag ++ payload ++ endTag))
                  (startTag ++ payload ++ endTag ++ tail))
    with (startTag ++ payload ++ endTag).
  2:{ replace (startTag ++ payload ++ endTag ++ tail)
        with ((startTag ++ payload ++ endTag) ++ tail)
        by now rewrite <- !app_assoc.
      now rewrite firstn_length_app. }
  cbn [List.length Nat.ltb Nat.leb pushEvents].
  assert (J : substring (startTag ++ payload ++ endTag) (List.length startTag)
                (List.length (startTag ++ payload ++ endTag) - List.length endTag)
              = payload).
  { unfold substring. rewrite !length_app.
    rewrite (Nat.min_l (List.length startTag)) by lia.
    rewrite Nat.min_l by lia. rewrite Nat.min_l by lia. rewrite Nat.max_r by lia.
    rewrite skipn_length_app.
    replace (List.length startTag + (List.length payload + List.length endTag)
             - List.length endTag - List.length startTag)
      with (List.length payload) by lia.
    now rewrite firstn_length_app. }
  rewrite J. now destruct (JSON_parse payload).
Qed.

End Parser.

Arguments Returned {A} a.
Arguments Thrown {A}.

(** ** The tags of the source, and a parser that keeps the text *)

Example tags_plain_on_one_line :
  plain MESSAGE_START_TAG /\ plain MESSAGE_END_TAG
  /\ plain REALTIME_MESSAGE_START_TAG /\ plain REALTIME_MESSAGE_END_TAG
  /\ oneLine MESSAGE_END_TAG /\ oneLine REALTIME_MESSAGE_END_TAG.
Proof. repeat split. Qed.

Definition asOneEvent (jsonStr : JSString) : option (list RuleEvent) :=
  Some [mkRuleEvent jsonStr [] [] [] false 0 None].

Definition lineFeed : JSString := [10%N].

Lemma events_only_after_leading_tag_witness :
  getEventsFromString asOneEvent (units " SFDX-START[]SFDX-END")
    MESSAGE_START_TAG MESSAGE_END_TAG
  = (Returned [], [NO_EVENTS]).
Proof.
  apply (proj1 (events_only_after_leading_tag asOneEvent
                  (units " SFDX-START[]SFDX-END") MESSAGE_START_TAG MESSAGE_END_TAG
                  eq_refl eq_refl)).
  reflexivity.
Defined.

Lemma block_decoded_to_its_payload_witness :
  getEventsFromString asOneEvent
    (MESSAGE_START_TAG ++ units "[1]SFDX-END SFDX-START[2]" ++ MESSAGE_END_TAG
       ++ lineFeed ++ units "SFDX-START[3]SFDX-END")
    MESSAGE_START_TAG MESSAGE_END_TAG
  = (Returned [mkRuleEvent (units "[1]SFDX-END SFDX-START[2]") [] [] [] false 0 None],
     []).
Proof.
  apply (block_decoded_to_its_payload asOneEvent MESSAGE_START_TAG
           (units "[1]SFDX-END SFDX-START[2]") MESSAGE_END_TAG
           (lineFeed ++ units "SFDX-START[3]SFDX-END")
           eq_refl eq_refl eq_refl eq_refl).
  right. exists 10%N, (units "SFDX-START[3]SFDX-END"). split; reflexivity.
Defined.

End OutputProcessor.
